(** * Orbits: Kepler solver, simulation clock and screen projection

    A shallow embedding of the numerical core of the [orbits] program
    ([keplerorbit.py], [solarsystem.py], [zoomsprite.py]) and the properties
    its specification states about it, followed by further properties of
    the same code, of [sciformat.py] and of the game loop of [orbits.py].

    Modelling conventions.
    - A Python [float] is a real number ([R]): arithmetic is exact, the
      functions of [math] are those of the Standard Library's [Reals].
      What Python raises is kept: a division by zero is a
      [ZeroDivisionError], [math.sqrt] of a negative number a [ValueError].
    - A [datetime.datetime] is a point on the proleptic Gregorian time line,
      counted in microseconds ([Z]); a [datetime.timedelta] is a number of
      microseconds.  The calendar functions are those of CPython's
      [datetime] module; the range check on years (1..9999) is not modelled.
    - A [while True] loop is run with fuel: one unit per execution of its
      body. *)

From Stdlib Require Import Reals Lra Lia ZArith List Bool Zfloor Psatz.
From Stdlib Require String.
Import ListNotations.
Import String.StringSyntax.
Delimit Scope string_scope with string.

(** ** Outcomes of a Python call *)

Module Py.

Inductive exn : Type :=
| ZeroDivisionError
| ValueError
| TypeError
| IndexError
| AttributeError.

(** [Ok a]: the call returned [a]; [Raise x]: it raised [x]; [OutOfFuel]:
    it was still running when the fuel ran out. *)
Inductive result (A : Type) : Type :=
| Ok (a : A)
| Raise (x : exn)
| OutOfFuel.

Arguments Ok {A} a.
Arguments Raise {A} x.
Arguments OutOfFuel {A}.

Definition bind {A B : Type} (m : result A) (k : A -> result B) : result B :=
  match m with
  | Ok a => k a
  | Raise x => Raise x
  | OutOfFuel => OutOfFuel
  end.

Definition isOk {A : Type} (m : result A) : bool :=
  match m with Ok _ => true | _ => false end.

Open Scope R_scope.

Definition Rleb (x y : R) : bool := if Rle_dec x y then true else false.
Definition Rltb (x y : R) : bool := if Rlt_dec x y then true else false.
Definition Reqb (x y : R) : bool := if Req_dec_T x y then true else false.

(** [x / y] on floats. *)
Definition truediv (x y : R) : result R :=
  if Reqb y 0 then Raise ZeroDivisionError else Ok (x / y).

(** [x // y] on floats: the floor of the quotient. *)
Definition floordiv (x y : R) : result Z :=
  if Reqb y 0 then Raise ZeroDivisionError else Ok (Zfloor (x / y)).

(** [math.sqrt]. *)
Definition math_sqrt (x : R) : result R :=
  if Rltb x 0 then Raise ValueError else Ok (sqrt x).

(** [math.isclose(a, b, abs_tol=t)]: the relative tolerance keeps its
    default, 1e-09. *)
Definition rel_tol : R := 1 / 10 ^ 9.

Definition isclose (a b abs_tol : R) : bool :=
  Rleb (Rabs (a - b)) (Rmax (rel_tol * Rmax (Rabs a) (Rabs b)) abs_tol).

End Py.

Declare Scope py_scope.
Notation "x <- m ;; k" := (Py.bind m (fun x => k))
  (at level 61, m at next level, right associativity) : py_scope.

(** ** [datetime]: the calendar of CPython's [datetime] module *)

Module Datetime.

Open Scope Z_scope.

Definition _is_leap (year : Z) : bool :=
  (year mod 4 =? 0) && (negb (year mod 100 =? 0) || (year mod 400 =? 0)).

Definition _days_before_year (year : Z) : Z :=
  let y := year - 1 in y * 365 + y / 4 - y / 100 + y / 400.

(** [_DAYS_IN_MONTH[month]] *)
Definition _DAYS_IN_MONTH (month : Z) : Z :=
  match month with
  | 1 => 31 | 2 => 28 | 3 => 31 | 4 => 30 | 5 => 31 | 6 => 30
  | 7 => 31 | 8 => 31 | 9 => 30 | 10 => 31 | 11 => 30 | 12 => 31
  | _ => -1
  end.

(** [_DAYS_BEFORE_MONTH[month]] *)
Definition _DAYS_BEFORE_MONTH (month : Z) : Z :=
  match month with
  | 1 => 0 | 2 => 31 | 3 => 59 | 4 => 90 | 5 => 120 | 6 => 151
  | 7 => 181 | 8 => 212 | 9 => 243 | 10 => 273 | 11 => 304 | 12 => 334
  | _ => -1
  end.

Definition _days_in_month (year month : Z) : Z :=
  if (month =? 2) && _is_leap year then 29 else _DAYS_IN_MONTH month.

Definition _days_before_month (year month : Z) : Z :=
  _DAYS_BEFORE_MONTH month + (if (month >? 2) && _is_leap year then 1 else 0).

Definition _ymd2ord (year month day : Z) : Z :=
  _days_before_year year + _days_before_month year month + day.

Definition _DI400Y : Z := 146097.
Definition _DI100Y : Z := 36524.
Definition _DI4Y : Z := 1461.

Definition _ord2ymd (n : Z) : Z * Z * Z :=
  let n := n - 1 in
  let n400 := n / _DI400Y in
  let n := n mod _DI400Y in
  let year := n400 * 400 + 1 in
  let n100 := n / _DI100Y in
  let n := n mod _DI100Y in
  let n4 := n / _DI4Y in
  let n := n mod _DI4Y in
  let n1 := n / 365 in
  let n := n mod 365 in
  let year := year + n100 * 100 + n4 * 4 + n1 in
  if (n1 =? 4) || (n100 =? 4) then (year - 1, 12, 31)
  else
    let leapyear := (n1 =? 3) && (negb (n4 =? 24) || (n100 =? 3)) in
    let month := Z.shiftr (n + 50) 5 in
    let preceding :=
      _DAYS_BEFORE_MONTH month + (if (month >? 2) && leapyear then 1 else 0) in
    if preceding >? n
    then
      let month := month - 1 in
      let preceding :=
        preceding
        - (_DAYS_IN_MONTH month + (if (month =? 2) && leapyear then 1 else 0)) in
      (year, month, n - preceding + 1)
    else (year, month, n - preceding + 1).

(** A [datetime] is the number of microseconds since the midnight that
    starts ordinal day 0; a [timedelta] a number of microseconds. *)
Definition datetime : Type := Z.
Definition timedelta : Type := Z.

Definition us_per_second : Z := 1000000.
Definition us_per_day : Z := 86400 * us_per_second.

(** [datetime.datetime(year, month, day, hour)] *)
Definition mk_datetime (year month day hour : Z) : datetime :=
  _ymd2ord year month day * us_per_day + hour * 3600 * us_per_second.

Definition toordinal (t : datetime) : Z := t / us_per_day.
Definition time_of_day (t : datetime) : Z := t mod us_per_day.

(** [timedelta.total_seconds()] *)
Definition total_seconds (d : timedelta) : R :=
  (IZR d / IZR us_per_second)%R.

(** Python's [round] on a float: to the nearest integer, ties to even. *)
Definition round_half_even (y : R) : Z :=
  let fl := Zfloor y in
  let frac := (y - IZR fl)%R in
  if Py.Rltb frac (1 / 2) then fl
  else if Py.Rltb (1 / 2) frac then fl + 1
  else if Z.even fl then fl else fl + 1.

(** [datetime.timedelta(seconds=x)] for a float [x]: the constructor
    rounds to whole microseconds. *)
Definition timedelta_of_seconds (x : R) : timedelta :=
  round_half_even (x * IZR us_per_second)%R.

(** The same rounding on an integer quotient [n / d], [d > 0]: what
    [timedelta(seconds=n_us.total_seconds() / d)] evaluates to. *)
Definition div_half_even (n d : Z) : Z :=
  let q := n / d in
  let m := n mod d in
  if 2 * m <? d then q
  else if d <? 2 * m then q + 1
  else if Z.even q then q else q + 1.

(** [dateutil.relativedelta.relativedelta], with the fields the speed
    table uses; [weeks=w] is stored as [days=7*w]. *)
Record relativedelta : Type := mk_relativedelta {
  years : Z;
  months : Z;
  days : Z;
  hours : Z;
  minutes : Z;
  seconds : Z
}.

Definition rd_years (n : Z) : relativedelta := mk_relativedelta n 0 0 0 0 0.
Definition rd_months (n : Z) : relativedelta := mk_relativedelta 0 n 0 0 0 0.
Definition rd_weeks (n : Z) : relativedelta := mk_relativedelta 0 0 (7 * n) 0 0 0.
Definition rd_days (n : Z) : relativedelta := mk_relativedelta 0 0 n 0 0 0.
Definition rd_hours (n : Z) : relativedelta := mk_relativedelta 0 0 0 n 0 0.
Definition rd_minutes (n : Z) : relativedelta := mk_relativedelta 0 0 0 0 n 0.
Definition rd_seconds (n : Z) : relativedelta := mk_relativedelta 0 0 0 0 0 n.

(** [dt + relativedelta]: years and months move the calendar date, the
    day is clipped to the length of the month reached, and the remaining
    fields are added as a [timedelta]. *)
Definition add_relativedelta (dt : datetime) (rd : relativedelta) : datetime :=
  let '(y, m, d) := _ord2ymd (toordinal dt) in
  let year := y + years rd in
  let month := m + months rd in
  let '(year, month) :=
    if month >? 12 then (year + 1, month - 12)
    else if month <? 1 then (year - 1, month + 12)
    else (year, month) in
  let day := Z.min (_days_in_month year month) d in
  _ymd2ord year month day * us_per_day + time_of_day dt
  + (days rd * 86400 + hours rd * 3600 + minutes rd * 60 + seconds rd)
    * us_per_second.

End Datetime.

(** ** [keplerorbit.py] *)

Module KeplerOrbit.

Import Py.
Import Datetime.
Open Scope R_scope.
Open Scope py_scope.

Definition _maxIterations : Z := 100.
Definition _accuracy : R := 1 / 10 ^ 10.

(** The object: the seven arguments of the constructor, the epoch, and the
    derived members [f], [r], [v] ([None] until first computed). *)
Record t : Type := mk {
  e : R;
  a : R;
  T : R;
  O : R;
  o : R;
  M : R;
  my : R;
  epoch : datetime;
  f : option R;
  r : option R;
  v : option R
}.

Definition set_f (self : t) (x : R) : t :=
  mk (e self) (a self) (T self) (O self) (o self) (M self) (my self)
     (epoch self) (Some x) (r self) (v self).

Definition set_r (self : t) (x : R) : t :=
  mk (e self) (a self) (T self) (O self) (o self) (M self) (my self)
     (epoch self) (f self) (Some x) (v self).

Definition set_v (self : t) (x : R) : t :=
  mk (e self) (a self) (T self) (O self) (o self) (M self) (my self)
     (epoch self) (f self) (r self) (Some x).

(** A member that may still be [None]: arithmetic on [None] is a
    [TypeError]. *)
Definition member (x : option R) : result R :=
  match x with
  | Some y => Ok y
  | None => Raise TypeError
  end.

(** [_getMeanAnomaly]: [2 * math.pi * t / self.T] *)
Definition _getMeanAnomaly (self : t) (t : R) : result R :=
  truediv (2 * PI * t) (T self).

(** The loop of [_getEccentricAnomaly], entered with [prevE] and
    [iterations].  The body never assigns [iterations]. *)
Fixpoint _getEccentricAnomaly_loop
    (fuel : nat) (self : t) (M prevE : R) (iterations : Z) : result R :=
  match fuel with
  | Datatypes.O => OutOfFuel
  | S fuel' =>
      let E := M + e self * sin prevE in
      if isclose E prevE _accuracy || (iterations >? _maxIterations)%Z
      then Ok E
      else _getEccentricAnomaly_loop fuel' self M E iterations
  end.

Definition _getEccentricAnomaly (fuel : nat) (self : t) (M : R) : result R :=
  let prevE := M in
  let iterations := 0%Z in
  _getEccentricAnomaly_loop fuel self M prevE iterations.

(** [_getTrueAnomaly]:
    [2 * math.atan(math.sqrt((1 + e) / (1 - e)) * math.tan(E / 2))] *)
Definition _getTrueAnomaly (self : t) (E : R) : result R :=
  q <- truediv (1 + e self) (1 - e self) ;;
  s <- math_sqrt q ;;
  Ok (2 * atan (s * tan (E / 2))).

(** [_getDistance]: [self.a * (1 - self.e * math.cos(E))] *)
Definition _getDistance (self : t) (E : R) : R :=
  a self * (1 - e self * cos E).

(** [_getSpeed]: [math.sqrt(self.my * (2 / self.r - 1 / self.a))] *)
Definition _getSpeed (self : t) : result R :=
  r0 <- member (r self) ;;
  x <- truediv 2 r0 ;;
  y <- truediv 1 (a self) ;;
  math_sqrt (my self * (x - y)).

(** [updatePosition]: the object after the call, and how the call ended.
    The three members are assigned one after the other, so a call that
    raises half-way leaves the earlier assignments in place. *)
Definition updatePosition (fuel : nat) (self : t) (time : datetime)
  : t * result unit :=
  let t := total_seconds (time - epoch self)%Z in
  match _getMeanAnomaly self t with
  | Ok m =>
      let M := m + M self in
      match _getEccentricAnomaly fuel self M with
      | Ok E =>
          match _getTrueAnomaly self E with
          | Ok f' =>
              let self1 := set_f self f' in
              let self2 := set_r self1 (_getDistance self1 E) in
              match _getSpeed self2 with
              | Ok v' => (set_v self2 v', Ok tt)
              | Raise x => (self2, Raise x)
              | OutOfFuel => (self2, OutOfFuel)
              end
          | Raise x => (self, Raise x)
          | OutOfFuel => (self, OutOfFuel)
          end
      | Raise x => (self, Raise x)
      | OutOfFuel => (self, OutOfFuel)
      end
  | Raise x => (self, Raise x)
  | OutOfFuel => (self, OutOfFuel)
  end.

(** The object before [__init__] calls [updatePosition]. *)
Definition fresh (e a T O o M my : R) : t :=
  mk e a T O o M my (mk_datetime 2000 1 1 12) None None None.

(** [__init__]: stores the arguments, sets the epoch to J2000, clears the
    derived members and calls [updatePosition(self.epoch)].  The object is
    produced only when that call returns. *)
Definition __init__ (fuel : nat) (e a T O o M my : R) : result t :=
  let self := fresh e a T O o M my in
  match updatePosition fuel self (epoch self) with
  | (self', Ok _) => Ok self'
  | (_, Raise x) => Raise x
  | (_, OutOfFuel) => OutOfFuel
  end.

(** The default arguments of [__init__]: the Earth. *)
Definition earth : t :=
  fresh (167086 / 10 ^ 7) (1496 * 10 ^ 8) (365256363004 / 10 ^ 9 * 24 * 60 * 60)
        (1749 / 10 * PI / 180) (2881 / 10 * PI / 180)
        (358617 / 1000 * PI / 180) (1327124400189 * 10 ^ 8).

(** [getCartesianPosition] *)
Definition getCartesianPosition (self : t) : result (R * R) :=
  f0 <- member (f self) ;;
  r0 <- member (r self) ;;
  let phi := f0 + O self + o self in
  Ok (r0 * cos phi, r0 * sin phi).

End KeplerOrbit.

(** ** [zoomsprite.py]: from orbital-plane offsets to screen points *)

Module ZoomSprite.

Import Py.
Open Scope R_scope.
Open Scope py_scope.

Record Rect : Type := mk_rect {
  rect_x : Z;
  rect_y : Z;
  width : Z;
  height : Z
}.

(** The last four lines of [Planet.update]: [x], [y] is the offset
    returned by [getCartesianPosition], [scale] is [Planet.scale]. *)
Definition Planet_place (x y zoom scale : R) (origo : Z * Z) (rect : Rect)
  : result Rect :=
  let '(x0, y0) := origo in
  x' <- floordiv (x * zoom) scale ;;
  y' <- floordiv (- y * zoom) scale ;;
  Ok (mk_rect (x' - width rect / 2 + x0) (y' - height rect / 2 + y0)
              (width rect) (height rect)).

Record Planet : Type := mk_planet {
  zoom : R;
  origo : Z * Z;
  orbit : KeplerOrbit.t;
  rect : Rect
}.

(** [Planet.update]; [time] is [Planet.time], [scale] is [Planet.scale]. *)
Definition Planet_update (fuel : nat) (scale : R) (time : Datetime.datetime)
    (self : Planet) : Planet * result unit :=
  match KeplerOrbit.updatePosition fuel (orbit self) time with
  | (orb, Ok _) =>
      let self1 := mk_planet (zoom self) (origo self) orb (rect self) in
      match
        (p <- KeplerOrbit.getCartesianPosition orb ;;
         Planet_place (fst p) (snd p) (zoom self) scale (origo self) (rect self))
      with
      | Ok rc => (mk_planet (zoom self) (origo self) orb rc, Ok tt)
      | Raise x => (self1, Raise x)
      | OutOfFuel => (self1, OutOfFuel)
      end
  | (orb, Raise x) =>
      (mk_planet (zoom self) (origo self) orb (rect self), Raise x)
  | (orb, OutOfFuel) =>
      (mk_planet (zoom self) (origo self) orb (rect self), OutOfFuel)
  end.

(** What [OrbitEllipse.createVertexList] stores for the offset [(x, y)]. *)
Definition vertex (p : R * R) : R * R := (fst p, - snd p).

(** One point of the polygon of [OrbitEllipse.redraw]. *)
Definition redraw_point (zoom scale : R) (x0 y0 : Z) (vx : R * R)
  : result (Z * Z) :=
  px <- floordiv (zoom * fst vx) scale ;;
  py <- floordiv (zoom * snd vx) scale ;;
  Ok ((px + x0)%Z, (py + y0)%Z).

(** The loop of [OrbitEllipse.redraw] that fills [points]. *)
Fixpoint redraw_points (zoom scale : R) (x0 y0 : Z) (vertices : list (R * R))
  : result (list (Z * Z)) :=
  match vertices with
  | [] => Ok []
  | vx :: rest =>
      p <- redraw_point zoom scale x0 y0 vx ;;
      ps <- redraw_points zoom scale x0 y0 rest ;;
      Ok (p :: ps)
  end.

End ZoomSprite.

(** ** [solarsystem.py]: the simulation clock *)

Module SolarSystem.

Import Py.
Import Datetime.
Open Scope Z_scope.
Open Scope py_scope.

Definition SPEED : list relativedelta :=
  [ rd_years (-100); rd_years (-50); rd_years (-10); rd_years (-5);
    rd_years (-1); rd_months (-6); rd_months (-1); rd_weeks (-1);
    rd_days (-1); rd_hours (-1); rd_minutes (-1); rd_seconds (-1);
    rd_seconds 0;
    rd_seconds 1; rd_minutes 1; rd_hours 1; rd_days 1; rd_weeks 1;
    rd_months 1; rd_months 6; rd_years 1; rd_years 5; rd_years 10;
    rd_years 50; rd_years 100 ].

Definition FREEZE_INDEX : Z := 12.
Definition EPOCH : datetime := mk_datetime 2000 1 1 12.
Definition UP : Z := 1.
Definition DOWN : Z := -1.

(** [l[i]] on a Python list. *)
Definition getitem {A : Type} (l : list A) (i : Z) : result A :=
  let n := Z.of_nat (length l) in
  let j := if i <? 0 then i + n else i in
  if (j <? 0) || (n <=? j) then Raise IndexError
  else match nth_error l (Z.to_nat j) with
       | Some x => Ok x
       | None => Raise IndexError
       end.

(** The members of [SolarSystem] that make up the clock, together with
    the class attribute [Planet.time] ([time]).  [pausIndex] does not
    exist before the first pause. *)
Record t : Type := mk {
  fps : Z;
  speedIndex : Z;
  targetTime : datetime;
  timeStep : timedelta;
  targetTimeReached : bool;
  paused : bool;
  pausIndex : option Z;
  time : datetime
}.

(** [updateTimeStep] *)
Definition updateTimeStep (self : t) : result t :=
  rd <- getitem SPEED (speedIndex self) ;;
  let targetTime' := add_relativedelta (time self) rd in
  secs <- truediv (total_seconds (targetTime' - time self)) (IZR (fps self)) ;;
  Ok (mk (fps self) (speedIndex self) targetTime' (timedelta_of_seconds secs)
         false (paused self) (pausIndex self) (time self)).

(** The clock part of [__init__]; [Planet.time] starts at its class
    default. *)
Definition __init__ : result t :=
  let speedIndex := FREEZE_INDEX + 6 in
  rd <- getitem SPEED speedIndex ;;
  let targetTime := add_relativedelta EPOCH rd in
  updateTimeStep
    (mk 30 speedIndex targetTime 0 false false None (mk_datetime 2000 1 1 12)).

(** The clock part of [update]: one tick. *)
Definition update (self : t) : result t :=
  let time' := time self + timeStep self in
  let reached :=
    ((speedIndex self >? FREEZE_INDEX) && (time' >=? targetTime self))
    || ((speedIndex self <? FREEZE_INDEX) && (time' <=? targetTime self)) in
  let self1 :=
    mk (fps self) (speedIndex self) (targetTime self) (timeStep self)
       (if reached then true else targetTimeReached self)
       (paused self) (pausIndex self) time' in
  if targetTimeReached self1 then updateTimeStep self1 else Ok self1.

(** [n] ticks in a row. *)
Fixpoint ticks (n : nat) (self : t) : result t :=
  match n with
  | O => Ok self
  | S n' => self' <- update self ;; ticks n' self'
  end.

(** [stepSpeed] *)
Definition stepSpeed (self : t) (direction : Z) : t :=
  if negb (paused self) then
    let newSpeedIndex := speedIndex self + direction in
    mk (fps self)
       (if (newSpeedIndex >=? 0) && (newSpeedIndex <? Z.of_nat (length SPEED))
        then speedIndex self + direction else speedIndex self)
       (targetTime self) (timeStep self) true (paused self) (pausIndex self)
       (time self)
  else self.

(** The key presses that reach the clock; [K_F2 d] carries what
    [getUserInputDate] returned ([None] for [False]). *)
Inductive event : Type :=
| K_LEFT
| K_RIGHT
| K_SPACE
| K_F2 (d : option datetime).

(** The clock part of [eventHandler]. *)
Definition eventHandler (self : t) (ev : event) : result t :=
  match ev with
  | K_LEFT => Ok (stepSpeed self DOWN)
  | K_RIGHT => Ok (stepSpeed self UP)
  | K_SPACE =>
      let paused' := negb (paused self) in
      if paused' then
        Ok (mk (fps self) FREEZE_INDEX (targetTime self) (timeStep self) true
               paused' (Some (speedIndex self)) (time self))
      else
        match pausIndex self with
        | Some i =>
            Ok (mk (fps self) i (targetTime self) (timeStep self) true
                   paused' (pausIndex self) (time self))
        | None => Raise AttributeError
        end
  | K_F2 d =>
      match d with
      | Some time' =>
          Ok (mk (fps self) (speedIndex self) (targetTime self)
                 (timeStep self) (targetTimeReached self) (paused self)
                 (pausIndex self) time')
      | None => Ok self
      end
  end.

End SolarSystem.

(** ** Auxiliary notions used to state the properties *)

Module Kepler.

Import KeplerOrbit.
Open Scope R_scope.

(** One execution of the loop body of [_getEccentricAnomaly]:
    [E = M + self.e * math.sin(prevE)]. *)
Definition step (self : KeplerOrbit.t) (M prevE : R) : R :=
  M + e self * sin prevE.

(** The [n]-th value the loop computes, counted from [E0]. *)
Definition iterate (self : KeplerOrbit.t) (M : R) (n : nat) (E0 : R) : R :=
  Nat.iter n (step self M) E0.

(** The residual of Kepler's equation at [E]. *)
Definition residual (self : KeplerOrbit.t) (M E : R) : R :=
  E - M - e self * sin E.

(** The mean anomaly that [updatePosition(time)] passes to the solver. *)
Definition meanAnomaly (self : KeplerOrbit.t) (time : Datetime.datetime) : R :=
  2 * PI * Datetime.total_seconds (time - epoch self)%Z / T self + M self.

(** A circular orbit whose mean anomaly at epoch is a full turn. *)
Definition circular_full_turn : KeplerOrbit.t := fresh 0 1 1 0 0 (2 * PI) 1.

(** An orbit of eccentricity 1/2 and a mean anomaly a thousand turns
    from the epoch. *)
Definition eccentric_half : KeplerOrbit.t := fresh (1 / 2) 1 1 0 0 0 1.
Definition far_anomaly : R := 1 / 10 ^ 6 + 2 * INR 1000 * PI.

(** An orbit of eccentricity 0.99 with mean anomaly 0.001 at epoch. *)
Definition near_parabolic : KeplerOrbit.t :=
  fresh (99 / 100) 1 1 0 0 (1 / 1000) 1.

(** Arguments for which [__init__] produces no object. *)
Definition rejected (e a T my : R) : Prop :=
  1 <= e \/ a = 0 \/ T = 0
  \/ (Rabs e < 1 /\ a < 0 /\ 0 < my) \/ (Rabs e < 1 /\ 0 < a /\ my < 0).

(** Arguments for which [__init__] produces an object. *)
Definition accepted (e a T my : R) : Prop :=
  Rabs e < 1 /\ 0 < a /\ T <> 0 /\ 0 <= my.

(** The elements are in their domains. *)
Definition valid (self : KeplerOrbit.t) : Prop :=
  0 <= e self < 1 /\ 0 < a self /\ 0 < T self /\ 0 < my self.

(** The three values a returning call assigns, from the eccentric
    anomaly [E] the solver found. *)
Definition f_of (self : KeplerOrbit.t) (E : R) : R :=
  2 * atan (sqrt ((1 + e self) / (1 - e self)) * tan (E / 2)).

Definition v_of (self : KeplerOrbit.t) (E : R) : R :=
  sqrt (my self * (2 / _getDistance self E - 1 / a self)).

Definition updated (self : KeplerOrbit.t) (E : R) : KeplerOrbit.t :=
  set_v (set_r (set_f self (f_of self E)) (_getDistance self E)) (v_of self E).

End Kepler.

(** ** Auxiliary notions for the calendar and the clock *)

Module Calendar.

Import Datetime.
Open Scope Z_scope.

(** The part of [_ord2ymd] that finds month and day from the day [r] of
    the year (counted from 0). *)
Definition month_day (r : Z) (leapyear : bool) : Z * Z :=
  let month := Z.shiftr (r + 50) 5 in
  let preceding :=
    _DAYS_BEFORE_MONTH month + (if (month >? 2) && leapyear then 1 else 0) in
  if preceding >? r
  then
    let month := month - 1 in
    let preceding :=
      preceding
      - (_DAYS_IN_MONTH month + (if (month =? 2) && leapyear then 1 else 0)) in
    (month, r - preceding + 1)
  else (month, r - preceding + 1).

Definition month_day_ok (leap : bool) (r : Z) : bool :=
  let '(m, d) := month_day r leap in
  (1 <=? m) && (m <=? 12) && (1 <=? d)
  && (d <=? (if (m =? 2) && leap then 29 else _DAYS_IN_MONTH m))
  && (_DAYS_BEFORE_MONTH m + (if (m >? 2) && leap then 1 else 0) + d =? r + 1).

(** [f] holds on the [len] integers from [i] on. *)
Fixpoint check_from (f : Z -> bool) (len : nat) (i : Z) : bool :=
  match len with
  | O => true
  | S k => f i && check_from f k (i + 1)
  end.

(** The ordinal reached from a valid date by moving [dy] years and [dm]
    months (what [add_relativedelta] computes before adding the time). *)
Definition shifted_ordinal (y m d dy dm : Z) : Z :=
  let year := y + dy in
  let month := m + dm in
  let '(year, month) :=
    if month >? 12 then (year + 1, month - 12)
    else if month <? 1 then (year - 1, month + 12)
    else (year, month) in
  _ymd2ord year month (Z.min (_days_in_month year month) d).

End Calendar.

Module Clock.

Import Datetime.
Import SolarSystem.
Open Scope Z_scope.

(** The clock with its time moved [k] time steps on, nothing else
    changed. *)
Definition advance (s : SolarSystem.t) (k : Z) : SolarSystem.t :=
  SolarSystem.mk (fps s) (speedIndex s) (targetTime s) (timeStep s)
    (targetTimeReached s) (paused s) (pausIndex s) (time s + k * timeStep s).

(** The test of [update]: has [time'] reached the target, in the
    direction of the selected speed? *)
Definition reached (s : SolarSystem.t) (time' : datetime) : bool :=
  ((speedIndex s >? FREEZE_INDEX) && (time' >=? targetTime s))
  || ((speedIndex s <? FREEZE_INDEX) && (time' <=? targetTime s)).

(** What [updateTimeStep] leaves in the clock when the speed table gives
    [rd]. *)
Definition retargeted (s : SolarSystem.t) (rd : relativedelta) : SolarSystem.t :=
  let target := add_relativedelta (time s) rd in
  SolarSystem.mk (fps s) (speedIndex s) target
    (div_half_even (target - time s) (fps s)) false (paused s) (pausIndex s)
    (time s).

(** The clock as [__init__] leaves it, before [updateTimeStep] runs. *)
Definition unset (fps speedIndex : Z) (time : datetime) : SolarSystem.t :=
  SolarSystem.mk fps speedIndex 0 0 false false None time.

End Clock.

(** ** The ellipse the orbit object describes *)

Module Ellipse.

Import Py KeplerOrbit Kepler.
Open Scope R_scope.

(** The largest closeness [math.isclose] accepts between [E] and
    [prevE]. *)
Definition tolerance (E prevE : R) : R :=
  Rmax (rel_tol * Rmax (Rabs E) (Rabs prevE)) _accuracy.

(** An exact solution of Kepler's equation for the mean anomaly [M0]. *)
Definition is_root (self : KeplerOrbit.t) (M0 E : R) : Prop :=
  E = M0 + e self * sin E.

(** Speed at the nearest and at the farthest point of the ellipse. *)
Definition periapsis_speed (self : KeplerOrbit.t) : R :=
  sqrt (my self / a self * ((1 + e self) / (1 - e self))).

Definition apoapsis_speed (self : KeplerOrbit.t) : R :=
  sqrt (my self / a self * ((1 - e self) / (1 + e self))).

(** An orbit of eccentricity 1/2 that is at periapsis at its epoch, and
    one that is at apoapsis. *)
Definition at_periapsis : KeplerOrbit.t := fresh (1 / 2) 1 1 0 0 0 1.
Definition at_apoapsis : KeplerOrbit.t := fresh (1 / 2) 1 1 0 0 PI 1.

(** The outcome of a call with the returned value negated. *)
Definition negated (m : result R) : result R :=
  match m with
  | Ok x => Ok (- x)
  | Raise x => Raise x
  | OutOfFuel => OutOfFuel
  end.

End Ellipse.

(** ** The game loop of [orbits.py] *)

Module GameLoop.

Import Py Datetime SolarSystem.
Open Scope Z_scope.
Open Scope py_scope.

(** What the game loop of [orbits.py] does to the clock: it handles the
    pending key presses, then calls [update]. *)
Inductive action : Type :=
| Tick
| Key (ev : event).

Definition act (s : SolarSystem.t) (a : action) : result SolarSystem.t :=
  match a with
  | Tick => update s
  | Key ev => eventHandler s ev
  end.

Fixpoint run (actions : list action) (s : SolarSystem.t)
  : result SolarSystem.t :=
  match actions with
  | [] => Ok s
  | a :: rest => s' <- act s a ;; run rest s'
  end.

(** The speed index points into the table, and a paused clock sits on the
    freeze entry with the speed to return to saved. *)
Definition well_formed (s : SolarSystem.t) : Prop :=
  0 < fps s
  /\ 0 <= speedIndex s < 25
  /\ (paused s = true ->
      speedIndex s = FREEZE_INDEX
      /\ exists i, pausIndex s = Some i /\ 0 <= i < 25).

Definition speed_key (ev : event) : Prop := ev = K_LEFT \/ ev = K_RIGHT.

(** A running clock at 30 frames per second, one day per second. *)
Definition running : SolarSystem.t :=
  SolarSystem.mk 30 16 (mk_datetime 2000 1 2 12) (us_per_day / 30) false
    false None (mk_datetime 2000 1 1 12).

End GameLoop.

(** ** [solarsystem.py]: zoom, key dispatch and the planets *)

Module Controls.

Import Py.
Open Scope R_scope.
Open Scope py_scope.

Definition MAX_ZOOM : R := 170.
Definition MIN_ZOOM : R := 1 / 100.

(** [stepZoom]: the zoom of the sprite group after the call;
    [zoomStepFactor] is [self.zoomStepFactor]. *)
Definition stepZoom (zoomStepFactor zoom : R) (direction : Z) : result R :=
  factor <- (if (direction =? SolarSystem.DOWN)%Z
             then truediv 1 zoomStepFactor
             else Ok zoomStepFactor) ;;
  let newZoom := zoom * factor in
  if Rleb MIN_ZOOM newZoom && Rleb newZoom MAX_ZOOM
  then Ok newZoom
  else Ok zoom.

(** The key and modifier constants of [pygame] that [eventHandler]
    reads. *)
Record pygame : Type := mk_pygame {
  K_ESCAPE : Z;
  K_F4 : Z;
  KMOD_ALT : Z;
  K_LEFT : Z;
  K_RIGHT : Z;
  K_UP : Z;
  K_DOWN : Z;
  K_SPACE : Z;
  K_F1 : Z;
  K_1 : Z;
  K_9 : Z;
  K_F2 : Z
}.

(** The branch of [eventHandler] a [KEYDOWN] event takes. *)
Inductive command : Type :=
| Quit
| StepSpeed (direction : Z)
| StepZoom (direction : Z)
| TogglePause
| ToggleHelp
| SelectPlanet (index : Z)
| SetDate
| Ignore.

(** The [KEYDOWN] part of [eventHandler] for the key [event.key] and the
    modifiers [event.mod]: [x and y] is [y] when [x] is not zero, and a
    number is true when it is not zero. *)
Definition keydown (pg : pygame) (key mods : Z) : command :=
  if ((key =? K_ESCAPE pg)
      || (negb (K_F4 pg =? 0) && negb (Z.land mods (KMOD_ALT pg) =? 0)))%Z
  then Quit
  else if (key =? K_LEFT pg)%Z then StepSpeed SolarSystem.DOWN
  else if (key =? K_RIGHT pg)%Z then StepSpeed SolarSystem.UP
  else if (key =? K_UP pg)%Z then StepZoom SolarSystem.UP
  else if (key =? K_DOWN pg)%Z then StepZoom SolarSystem.DOWN
  else if (key =? K_SPACE pg)%Z then TogglePause
  else if (key =? K_F1 pg)%Z then ToggleHelp
  else if ((K_1 pg <=? key) && (key <? K_9 pg + 1))%Z
       then SelectPlanet (key - K_1 pg)
  else if (key =? K_F2 pg)%Z then SetDate
  else Ignore.

(** The constants as pygame 2 defines them. *)
Definition pygame2 : pygame :=
  mk_pygame 27 1073741885 768 1073741904 1073741903 1073741906 1073741905
            32 1073741882 49 57 1073741883.

(** The sprites handed to [PlanetGroup.add]: planets carry a name and an
    orbit, anything else (the sun) does not. *)
Inductive sprite : Type :=
| a_Planet (name : String.string) (orbit : KeplerOrbit.t)
| not_a_Planet.

(** [PlanetGroup.add], the list [self.orbits] after the call. *)
Fixpoint PlanetGroup_add (orbits : list (String.string * KeplerOrbit.t))
    (sprites : list sprite) : list (String.string * KeplerOrbit.t) :=
  match sprites with
  | [] => orbits
  | a_Planet name orbit :: rest => PlanetGroup_add (orbits ++ [(name, orbit)]) rest
  | not_a_Planet :: rest => PlanetGroup_add orbits rest
  end.

(** The planets among the sprites, in order. *)
Fixpoint planets (sprites : list sprite) : list (String.string * KeplerOrbit.t) :=
  match sprites with
  | [] => []
  | a_Planet name orbit :: rest => (name, orbit) :: planets rest
  | not_a_Planet :: rest => planets rest
  end.

(** Nine planets and a sun, added in the order of
    [initCelestialBodies]. *)
Definition nine_planets_and_sun (orbit : KeplerOrbit.t) : list sprite :=
  [a_Planet "Mercury"%string orbit; a_Planet "Venus"%string orbit;
   a_Planet "Earth"%string orbit; a_Planet "Mars"%string orbit;
   a_Planet "Jupiter"%string orbit; a_Planet "Saturn"%string orbit;
   a_Planet "Uranus"%string orbit; a_Planet "Neptune"%string orbit;
   a_Planet "Pluto"%string orbit; not_a_Planet].

(** [_toRadians] and [_toSeconds] *)
Definition _toRadians (degrees : R) : R := degrees * PI / 180.
Definition _toSeconds (days : R) : R := days * 86400.

(** [KeplerOrbit(e, a, T, O, o, M)], with [my] left to its default. *)
Definition KeplerOrbit_ (fuel : nat) (e a T O o M : R)
  : result KeplerOrbit.t :=
  KeplerOrbit.__init__ fuel e a T O o M (KeplerOrbit.my KeplerOrbit.earth).

(** [KeplerOrbit()]: every argument left to its default. *)
Definition KeplerOrbit_default (fuel : nat) : result KeplerOrbit.t :=
  let d := KeplerOrbit.earth in
  KeplerOrbit.__init__ fuel (KeplerOrbit.e d) (KeplerOrbit.a d)
    (KeplerOrbit.T d) (KeplerOrbit.O d) (KeplerOrbit.o d) (KeplerOrbit.M d)
    (KeplerOrbit.my d).

(** [initCelestialBodies]: the sprites it hands to [self.cbSprites.add],
    with the orbits it constructs for them. *)
Definition initCelestialBodies (fuel : nat) : result (list sprite) :=
  mercuryOrbit <-
    KeplerOrbit_ fuel (21 / 100) 57909050000 (_toSeconds (879691 / 10000))
      (_toRadians (48331 / 1000)) (_toRadians (29124 / 1000))
      (_toRadians (174796 / 1000)) ;;
  venusOrbit <-
    KeplerOrbit_ fuel (68 / 10000) 108208628000 (_toSeconds (2247 / 10))
      (_toRadians (76680 / 1000)) (_toRadians (54884 / 1000))
      (_toRadians (50115 / 1000)) ;;
  earthOrbit <- KeplerOrbit_default fuel ;;
  marsOrbit <-
    KeplerOrbit_ fuel (934 / 10000) 227942276000 (_toSeconds 687)
      (_toRadians (49558 / 1000)) (_toRadians (286502 / 1000))
      (_toRadians (19412 / 1000)) ;;
  jupiterOrbit <-
    KeplerOrbit_ fuel (489 / 10000) 778570000000 (_toSeconds (433259 / 100))
      (_toRadians (100464 / 1000)) (_toRadians (273867 / 1000))
      (_toRadians (20020 / 1000)) ;;
  saturnOrbit <-
    KeplerOrbit_ fuel (565 / 10000) 1433530000000
      (_toSeconds (1075922 / 100))
      (_toRadians (113665 / 1000)) (_toRadians (339392 / 1000))
      (_toRadians (317020 / 1000)) ;;
  uranusOrbit <-
    KeplerOrbit_ fuel (46381 / 1000000) 2875040000000
      (_toSeconds (306885 / 10))
      (_toRadians (74006 / 1000)) (_toRadians (96998857 / 1000000))
      (_toRadians (1422386 / 10000)) ;;
  neptuneOrbit <-
    KeplerOrbit_ fuel (9456 / 1000000) 4504390000000 (_toSeconds 60182)
      (_toRadians (131784 / 1000)) (_toRadians (276336 / 1000))
      (_toRadians (256228 / 1000)) ;;
  plutoOrbit <-
    KeplerOrbit_ fuel (2488 / 10000) 5906380000000 (_toSeconds 90560)
      (_toRadians (110299 / 1000)) (_toRadians (113834 / 1000))
      (_toRadians (1453 / 100)) ;;
  Ok [a_Planet "Mercury"%string mercuryOrbit;
      a_Planet "Venus"%string venusOrbit;
      a_Planet "Earth"%string earthOrbit;
      a_Planet "Mars"%string marsOrbit;
      a_Planet "Jupiter"%string jupiterOrbit;
      a_Planet "Saturn"%string saturnOrbit;
      a_Planet "Uranus"%string uranusOrbit;
      a_Planet "Neptune"%string neptuneOrbit;
      a_Planet "Pluto"%string plutoOrbit;
      not_a_Planet].

(** The names in [self.cbSprites.orbits], in the order of the digit
    keys. *)
Definition planet_names : list String.string :=
  ["Mercury"; "Venus"; "Earth"; "Mars"; "Jupiter"; "Saturn"; "Uranus";
   "Neptune"; "Pluto"]%string.

End Controls.

(** ** [zoomsprite.py]: body images and the traced ellipse *)

Module Sprites.

Import Py Datetime KeplerOrbit ZoomSprite.
Open Scope R_scope.
Open Scope py_scope.

(** [AbstractCelestialBody.redraw], first line: the radius in pixels of
    the disc that is drawn.  [referenceRadius] is the class attribute
    [AbstractCelestialBody.referenceRadius]. *)
Definition disc_radius (referenceRadius : R) (minRadius : Z)
    (radius zoom : R) : Z :=
  Z.max minRadius (round_half_even (radius * referenceRadius * zoom)).

(** The value [SolarSystem.__init__] gives the class attribute. *)
Definition JUPITER_RADIUS_AT_ZOOM_ONE : R := 15.

(** The side of the square image, from the radius [r] of the disc. *)
Definition image_side (rings : list R) (r : Z) : Z :=
  let side := (r * 2)%Z in
  if (0 <? length rings)%nat
  then Z.max (r + 1) (Zceil (last rings 0 * 2 * IZR r))
  else side.

(** One turn of the loop over [self.rings]: the rectangle (left, top,
    width, height) handed to [pygame.draw.ellipse], and the line width. *)
Definition ring_ellipse (side r : Z) (ring : R) : (Z * Z * Z * Z) * Z :=
  let ring' := Z.max (r + 1) (round_half_even (ring * IZR r)) in
  let width := if (ring' =? r + 1)%Z then 0%Z else 1%Z in
  ((side / 2 - ring', side / 2 - Z.max 1 (r / 2), ring' * 2, r)%Z, width).

(** The loop of [createVertexList], with [n] turns left. *)
Fixpoint createVertexList_loop (fuel n : nat) (orbit : KeplerOrbit.t)
    (delta timeStep : timedelta) (vertices : list (R * R))
  : KeplerOrbit.t * result (list (R * R)) :=
  match n with
  | Datatypes.O => (orbit, Ok vertices)
  | S n' =>
      match updatePosition fuel orbit (epoch orbit + delta)%Z with
      | (orbit', Ok _) =>
          match getCartesianPosition orbit' with
          | Ok p =>
              createVertexList_loop fuel n' orbit' (delta + timeStep)%Z
                timeStep (vertices ++ [vertex p])
          | Raise x => (orbit', Raise x)
          | OutOfFuel => (orbit', OutOfFuel)
          end
      | (orbit', Raise x) => (orbit', Raise x)
      | (orbit', OutOfFuel) => (orbit', OutOfFuel)
      end
  end.

(** [OrbitEllipse.createVertexList]: the orbit object after the call and
    the vertex list it leaves. *)
Definition createVertexList (fuel : nat) (orbit : KeplerOrbit.t)
    (nSamples : Z) : KeplerOrbit.t * result (list (R * R)) :=
  match truediv (T orbit) (IZR nSamples) with
  | Ok secs =>
      createVertexList_loop fuel (Z.to_nat nSamples) orbit 0%Z
        (timedelta_of_seconds secs) []
  | Raise x => (orbit, Raise x)
  | OutOfFuel => (orbit, OutOfFuel)
  end.

(** The point [p] lies between the two apsidal circles of [self]. *)
Definition between_apsides (self : KeplerOrbit.t) (p : R * R) : Prop :=
  a self * (1 - e self) <= sqrt (fst p * fst p + snd p * snd p)
  <= a self * (1 + e self).

(** The eight fields that describe the orbit. *)
Definition elements (self : KeplerOrbit.t)
  : R * R * R * R * R * R * R * datetime :=
  (e self, a self, T self, O self, o self, M self, my self, epoch self).

(** Saturn as [initCelestialBodies] draws it. *)
Definition saturn_rings : list R := [13 / 10; 16 / 10; 19 / 10].

End Sprites.

(** ** [sciformat.py] and the planet labels *)

Module SciFormat.

Import Py.
Open Scope R_scope.
Open Scope py_scope.

(** [math.log10]: a [ValueError] outside the positive numbers. *)
Definition math_log10 (x : R) : result R :=
  if Rleb x 0 then Raise ValueError else Ok (ln x / ln 10).

Record t : Type := mk {
  num : R;
  magnitude : Z;
  base : R
}.

(** [SciFormat.__init__] *)
Definition __init__ (num : R) : result t :=
  l <- math_log10 num ;;
  let magnitude := Zfloor l in
  base <- truediv num (powerRZ 10 magnitude) ;;
  Ok (mk num magnitude base).

(** The test [abs(self.magnitude) < magLim] of [__format__], which
    chooses the plain notation over the scientific one. *)
Definition plain_notation (self : t) (magLim : Z) : bool :=
  (Z.abs (magnitude self) <? magLim)%Z.

(** The two numbers [updateRealtimeLabels] formats for the selected
    planet: [SciFormat(orbit.r / 1000)] and [SciFormat(orbit.v / 1000)]. *)
Definition planet_info (orbit : KeplerOrbit.t) : result (t * t) :=
  r0 <- KeplerOrbit.member (KeplerOrbit.r orbit) ;;
  d <- truediv r0 1000 ;;
  distance <- __init__ d ;;
  v0 <- KeplerOrbit.member (KeplerOrbit.v orbit) ;;
  s <- truediv v0 1000 ;;
  speed <- __init__ s ;;
  Ok (distance, speed).

(** The magnitude limit of [SPEED_INFO_LBL], whose format is [3.02]. *)
Definition speed_magLim : Z := 3.

(** An orbit around a body without mass. *)
Definition massless : KeplerOrbit.t := KeplerOrbit.fresh (1 / 2) 1 1 0 0 0 0.

End SciFormat.

(** * Properties *)

(** ** Facts on the Python primitives *)

Section PyFacts.

Import Py.
Open Scope R_scope.

Lemma Rleb_true (x y : R) : Rleb x y = true <-> x <= y.
Proof. unfold Rleb; destruct (Rle_dec x y); split; intros; try easy. Qed.

Lemma Rleb_false (x y : R) : Rleb x y = false <-> y < x.
Proof.
  unfold Rleb; destruct (Rle_dec x y); split; intros; try easy; lra.
Qed.

Lemma Rltb_true (x y : R) : Rltb x y = true <-> x < y.
Proof. unfold Rltb; destruct (Rlt_dec x y); split; intros; try easy. Qed.

Lemma Rltb_false (x y : R) : Rltb x y = false <-> y <= x.
Proof.
  unfold Rltb; destruct (Rlt_dec x y); split; intros; try easy; lra.
Qed.

Lemma Reqb_true (x y : R) : Reqb x y = true <-> x = y.
Proof. unfold Reqb; destruct (Req_dec_T x y); split; intros; try easy. Qed.

Lemma Reqb_false (x y : R) : Reqb x y = false <-> x <> y.
Proof. unfold Reqb; destruct (Req_dec_T x y); split; intros; try easy. Qed.

Lemma truediv_ok (x y : R) : y <> 0 -> truediv x y = Ok (x / y).
Proof. intros H; unfold truediv; apply Reqb_false in H; now rewrite H. Qed.

Lemma truediv_zero (x : R) : truediv x 0 = Raise ZeroDivisionError.
Proof.
  unfold truediv; replace (Reqb 0 0) with true; [easy|].
  symmetry; now apply Reqb_true.
Qed.

Lemma floordiv_ok (x y : R) : y <> 0 -> floordiv x y = Ok (Zfloor (x / y)).
Proof. intros H; unfold floordiv; apply Reqb_false in H; now rewrite H. Qed.

Lemma math_sqrt_ok (x : R) : 0 <= x -> math_sqrt x = Ok (sqrt x).
Proof. intros H; unfold math_sqrt; apply Rltb_false in H; now rewrite H. Qed.

Lemma math_sqrt_neg (x : R) : x < 0 -> math_sqrt x = Raise ValueError.
Proof. intros H; unfold math_sqrt; apply Rltb_true in H; now rewrite H. Qed.

Lemma isclose_iff (a b tol : R) :
  isclose a b tol = true
  <-> Rabs (a - b) <= Rmax (rel_tol * Rmax (Rabs a) (Rabs b)) tol.
Proof. unfold isclose; apply Rleb_true. Qed.

Lemma isclose_abs (a b tol : R) :
  Rabs (a - b) <= tol -> isclose a b tol = true.
Proof.
  intros H; apply isclose_iff.
  eapply Rle_trans; [exact H | apply Rmax_r].
Qed.

Lemma isclose_refl (a tol : R) : 0 <= tol -> isclose a a tol = true.
Proof.
  intros H; apply isclose_abs.
  replace (a - a) with 0 by ring; now rewrite Rabs_R0.
Qed.

(** [|sin x| <= |x|] and the Lipschitz bound that follows. *)
Lemma sin_abs_le (x : R) : Rabs (sin x) <= Rabs x.
Proof.
  assert (pos : forall y, 0 < y -> Rabs (sin y) <= y).
  { intros y Hy. pose proof (sin_lt_x y Hy) as Hlt.
    destruct (Rle_dec 1 y) as [H1|H1].
    - pose proof (SIN_bound y) as [Hl Hu].
      apply Rabs_le; lra.
    - assert (0 < sin y).
      { apply sin_gt_0; [lra|]. pose proof PI_4. pose proof PI_RGT_0.
        pose proof PI2_3_2. lra. }
      rewrite Rabs_pos_eq; lra. }
  destruct (Rtotal_order x 0) as [Hx|[Hx|Hx]].
  - rewrite <- (Rabs_Ropp x), <- (Rabs_Ropp (sin x)), <- sin_neg.
    rewrite (Rabs_pos_eq (- x)) by lra. apply pos; lra.
  - subst x; rewrite sin_0, Rabs_R0; lra.
  - rewrite (Rabs_pos_eq x) by lra. now apply pos.
Qed.

Lemma sin_lipschitz (x y : R) : Rabs (sin x - sin y) <= Rabs (x - y).
Proof.
  rewrite form4.
  rewrite !Rabs_mult.
  rewrite (Rabs_pos_eq 2) by lra.
  pose proof (COS_bound ((x + y) / 2)) as [Hc1 Hc2].
  assert (Hc : Rabs (cos ((x + y) / 2)) <= 1) by (apply Rabs_le; lra).
  pose proof (sin_abs_le ((x - y) / 2)) as Hs.
  assert (Hh : Rabs ((x - y) / 2) = Rabs (x - y) / 2).
  { unfold Rdiv; rewrite Rabs_mult, (Rabs_pos_eq (/ 2)); lra. }
  rewrite Hh in Hs.
  pose proof (Rabs_pos (cos ((x + y) / 2))).
  pose proof (Rabs_pos (sin ((x - y) / 2))).
  nra.
Qed.

(** Polynomial lower bounds on [sin] and [cos]. *)
Lemma sin_cubic_lb (x : R) : 0 <= x <= 1 -> x - x ^ 3 / 6 <= sin x.
Proof.
  intros [H0 H1].
  assert (Hpi : x <= PI) by (pose proof PI2_1; lra).
  destruct (SIN x H0 Hpi) as [Hlb _].
  eapply Rle_trans; [|exact Hlb].
  unfold sin_lb, sin_approx, sin_term, sum_f_R0.
  repeat match goal with
  | |- context [INR (fact ?n)] =>
      let v := eval vm_compute in (Z.of_nat (fact n)) in
      replace (INR (fact n)) with (IZR v)
        by (rewrite INR_IZR_INZ; apply f_equal; vm_compute; reflexivity)
  end.
  change (2 * 0 + 1)%nat with 1%nat. change (2 * 1 + 1)%nat with 3%nat.
  change (2 * 2 + 1)%nat with 5%nat. change (2 * 3 + 1)%nat with 7%nat.
  assert (0 <= x ^ 5 * (1 - x ^ 2)).
  { apply Rmult_le_pos; [apply pow_le; lra | nra]. }
  assert (0 <= x ^ 7) by (apply pow_le; lra).
  nra.
Qed.

Lemma sin_le_id (x : R) : 0 <= x -> sin x <= x.
Proof.
  intros [H|<-]; [apply Rlt_le, sin_lt_x, H | rewrite sin_0; lra].
Qed.

Lemma cos_quadratic_lb (x : R) : 1 - x ^ 2 / 2 <= cos x.
Proof.
  replace x with (2 * (x / 2)) at 2 by field.
  rewrite cos_2a_sin.
  pose proof (sin_abs_le (x / 2)) as H.
  assert (sin (x / 2) * sin (x / 2) <= (x / 2) * (x / 2)).
  { rewrite <- (Rabs_pos_eq (sin (x / 2) * sin (x / 2))) by nra.
    rewrite Rabs_mult.
    replace (x / 2 * (x / 2)) with (Rabs (x / 2) * Rabs (x / 2)).
    - pose proof (Rabs_pos (sin (x / 2))). nra.
    - rewrite <- Rabs_mult. apply Rabs_pos_eq. nra. }
  nra.
Qed.

Lemma pow_antitone (x : R) (m n : nat) :
  0 <= x <= 1 -> (m <= n)%nat -> x ^ n <= x ^ m.
Proof.
  intros Hx Hmn; induction Hmn as [|n Hmn IH]; [lra|].
  cbn [pow]. assert (0 <= x ^ n) by (apply pow_le; lra). nra.
Qed.

End PyFacts.

(** ** The solver of Kepler's equation *)

Section SolverFacts.

Import Py.
Import KeplerOrbit.
Import Kepler.
Open Scope R_scope.

Variable self : KeplerOrbit.t.
Variable M : R.

Lemma iterate_S (n : nat) (x : R) :
  iterate self M (S n) x = step self M (iterate self M n x).
Proof. reflexivity. Qed.

Lemma iterate_shift (n : nat) (x : R) :
  iterate self M n (step self M x) = iterate self M (S n) x.
Proof. unfold iterate; now rewrite Nat.iter_succ_r. Qed.

Lemma accuracy_pos : 0 < _accuracy.
Proof. unfold _accuracy; apply Rdiv_lt_0_compat; [lra | apply pow_lt; lra]. Qed.

(** The counter stays at 0, so the test on it never holds. *)
Lemma loop_eq (fuel : nat) (prevE : R) :
  _getEccentricAnomaly_loop (S fuel) self M prevE 0
  = if isclose (step self M prevE) prevE _accuracy
    then Ok (step self M prevE)
    else _getEccentricAnomaly_loop fuel self M (step self M prevE) 0.
Proof.
  cbn [_getEccentricAnomaly_loop]; fold (step self M prevE).
  replace (0 >? _maxIterations)%Z with false by reflexivity.
  now rewrite orb_false_r.
Qed.

(** The loop returns only through the closeness test. *)
Lemma loop_sound (fuel : nat) : forall (prevE E : R),
  _getEccentricAnomaly_loop fuel self M prevE 0 = Ok E ->
  exists n, (n < fuel)%nat
    /\ E = iterate self M (S n) prevE
    /\ isclose E (iterate self M n prevE) _accuracy = true.
Proof.
  induction fuel as [|fuel IH]; intros prevE E H; [discriminate|].
  rewrite loop_eq in H.
  destruct (isclose (step self M prevE) prevE _accuracy) eqn:Hc.
  - injection H as <-. exists 0%nat; repeat split; [lia | exact Hc].
  - apply IH in H as (n & Hn & HE & Hcl).
    exists (S n); rewrite <- (iterate_shift n prevE), <- (iterate_shift (S n) prevE).
    repeat split; [lia | exact HE | exact Hcl].
Qed.

Lemma loop_never_raises (fuel : nat) : forall (prevE : R) (x : exn),
  _getEccentricAnomaly_loop fuel self M prevE 0 <> Raise x.
Proof.
  induction fuel as [|fuel IH]; intros prevE x; [discriminate|].
  rewrite loop_eq.
  destruct (isclose (step self M prevE) prevE _accuracy); [discriminate|].
  apply IH.
Qed.

(** Once two successive values are close, enough fuel makes the loop
    return. *)
Lemma loop_complete (k : nat) : forall (fuel : nat) (prevE : R),
  isclose (iterate self M (S k) prevE) (iterate self M k prevE) _accuracy = true ->
  (k < fuel)%nat ->
  exists E, _getEccentricAnomaly_loop fuel self M prevE 0 = Ok E.
Proof.
  induction k as [|k IH]; intros fuel prevE Hc Hk;
    (destruct fuel as [|fuel]; [lia|]); rewrite loop_eq.
  - cbn in Hc; fold (step self M prevE) in Hc. rewrite Hc; eauto.
  - destruct (isclose (step self M prevE) prevE _accuracy); [eauto|].
    apply IH; [|lia]. now rewrite !iterate_shift.
Qed.

(** The loop is seeded with [M]; when the value it computes is within
    [_accuracy] of the previous one it returns that value. *)
Lemma solver_stops_when_close (fuel : nat) (prevE : R) :
  Rabs (step self M prevE - prevE) < _accuracy ->
  _getEccentricAnomaly_loop (S fuel) self M prevE 0 = Ok (step self M prevE).
Proof.
  intros H; rewrite loop_eq.
  now rewrite isclose_abs by (apply Rlt_le; exact H).
Qed.

(** As long as no two successive values are close, the loop keeps
    running. *)
Lemma loop_runs (fuel : nat) : forall (prevE : R),
  (forall k, (k < fuel)%nat ->
     isclose (iterate self M (S k) prevE) (iterate self M k prevE) _accuracy
     = false) ->
  _getEccentricAnomaly_loop fuel self M prevE 0 = OutOfFuel.
Proof.
  induction fuel as [|fuel IH]; intros prevE H; [reflexivity|].
  rewrite loop_eq.
  pose proof (H 0%nat ltac:(lia)) as H0; cbn in H0.
  fold (step self M prevE) in H0; rewrite H0.
  apply IH; intros k Hk. rewrite !iterate_shift. apply H; lia.
Qed.

(** The step is a contraction of factor [e]. *)
Lemma step_contracts (x y : R) :
  Rabs (step self M x - step self M y) <= Rabs (e self) * Rabs (x - y).
Proof.
  unfold step.
  replace (M + e self * sin x - (M + e self * sin y))
    with (e self * (sin x - sin y)) by ring.
  rewrite Rabs_mult.
  apply Rmult_le_compat_l; [apply Rabs_pos | apply sin_lipschitz].
Qed.

Lemma iterate_gap (n : nat) (x : R) :
  Rabs (iterate self M (S n) x - iterate self M n x)
  <= Rabs (e self) ^ n * Rabs (step self M x - x).
Proof.
  induction n as [|n IH].
  - cbn; lra.
  - rewrite (iterate_S (S n)), (iterate_S n).
    eapply Rle_trans; [apply step_contracts|].
    rewrite <- iterate_S. cbn [pow]. rewrite Rmult_assoc.
    apply Rmult_le_compat_l; [apply Rabs_pos | exact IH].
Qed.

(** For an eccentricity of magnitude below 1 the solver returns, whatever
    [M]. *)
Lemma solver_terminates :
  Rabs (e self) < 1 ->
  exists N, forall fuel, (N <= fuel)%nat ->
    exists E, _getEccentricAnomaly fuel self M = Ok E.
Proof.
  intros Habs.
  set (d := Rabs (step self M M - M)).
  assert (Hd : 0 <= d) by apply Rabs_pos.
  assert (Hy : 0 < _accuracy / (d + 1)).
  { apply Rdiv_lt_0_compat; [apply accuracy_pos | lra]. }
  destruct (pow_lt_1_zero (e self) Habs _ Hy) as [N HN].
  exists (S N); intros fuel Hfuel.
  unfold _getEccentricAnomaly.
  apply (loop_complete N); [|lia].
  apply isclose_abs.
  eapply Rle_trans; [apply iterate_gap|].
  fold d.
  specialize (HN N (Nat.le_refl N)).
  rewrite <- RPow_abs in HN.
  assert (Hm : Rabs (e self) ^ N * (d + 1) < _accuracy).
  { apply (Rmult_lt_compat_r (d + 1)) in HN; [|lra].
    unfold Rdiv in HN; rewrite Rmult_assoc, Rinv_l, Rmult_1_r in HN; lra. }
  assert (0 <= Rabs (e self) ^ N) by (apply pow_le; apply Rabs_pos).
  nra.
Qed.

End SolverFacts.

(** ** [updatePosition] and the constructor *)

Section OrbitFacts.

Import Py.
Import KeplerOrbit.
Import Kepler.
Open Scope R_scope.

(** What a returning call went through. *)
Lemma updatePosition_Ok_inv (fuel : nat) (self self' : KeplerOrbit.t)
    (time : Datetime.datetime) :
  updatePosition fuel self time = (self', Ok tt) ->
  exists E,
    _getEccentricAnomaly fuel self (meanAnomaly self time) = Ok E
    /\ T self <> 0 /\ e self <> 1 /\ 0 <= (1 + e self) / (1 - e self)
    /\ _getDistance self E <> 0 /\ a self <> 0
    /\ 0 <= my self * (2 / _getDistance self E - 1 / a self)
    /\ self' = updated self E.
Proof.
  unfold updatePosition, _getMeanAnomaly, truediv.
  destruct (Reqb (T self) 0) eqn:HT; [discriminate|].
  fold (meanAnomaly self time).
  destruct (_getEccentricAnomaly fuel self (meanAnomaly self time))
    as [E| |] eqn:HE; try discriminate.
  unfold _getTrueAnomaly, truediv.
  destruct (Reqb (1 - e self) 0) eqn:He; [discriminate|]; cbn [bind].
  unfold math_sqrt.
  destruct (Rltb ((1 + e self) / (1 - e self)) 0) eqn:Hq; [discriminate|].
  cbn [bind].
  unfold _getSpeed, _getDistance; cbn [set_r set_f r a my member bind e].
  unfold truediv.
  destruct (Reqb (a self * (1 - e self * cos E)) 0) eqn:Hr;
    [discriminate|]; cbn [bind].
  destruct (Reqb (a self) 0) eqn:Ha; [discriminate|]; cbn [bind].
  unfold math_sqrt.
  destruct (Rltb (my self * (2 / (a self * (1 - e self * cos E)) - 1 / a self)) 0)
    eqn:Hs; [discriminate|].
  intros H; injection H as <-.
  apply Reqb_false in HT, He, Hr, Ha. apply Rltb_false in Hq, Hs.
  exists E; repeat split; try assumption.
  intros Habs; apply He; lra.
Qed.

(** Conversely, these conditions make the call return. *)
Lemma updatePosition_Ok_intro (fuel : nat) (self : KeplerOrbit.t)
    (time : Datetime.datetime) (E : R) :
  _getEccentricAnomaly fuel self (meanAnomaly self time) = Ok E ->
  T self <> 0 -> e self <> 1 -> 0 <= (1 + e self) / (1 - e self) ->
  _getDistance self E <> 0 -> a self <> 0 ->
  0 <= my self * (2 / _getDistance self E - 1 / a self) ->
  updatePosition fuel self time = (updated self E, Ok tt).
Proof.
  intros HE HT He Hq Hr Ha Hs.
  unfold updatePosition, _getMeanAnomaly.
  rewrite (truediv_ok _ _ HT). fold (meanAnomaly self time). rewrite HE.
  unfold _getTrueAnomaly.
  rewrite truediv_ok by lra. cbn [bind].
  rewrite (math_sqrt_ok _ Hq). cbn [bind].
  unfold _getSpeed; cbn [set_r set_f r a my member bind].
  fold (f_of self E).
  change (_getDistance (set_f self (f_of self E)) E) with (_getDistance self E).
  rewrite (truediv_ok _ _ Hr). cbn [bind].
  rewrite (truediv_ok _ _ Ha). cbn [bind].
  rewrite (math_sqrt_ok _ Hs). reflexivity.
Qed.

(** The distance lies between the apsides, whatever [E] is. *)
Lemma distance_bounds (self : KeplerOrbit.t) (E : R) :
  0 <= e self -> 0 <= a self ->
  a self * (1 - e self) <= _getDistance self E <= a self * (1 + e self).
Proof.
  intros He Ha; unfold _getDistance.
  pose proof (COS_bound E) as [Hl Hu].
  split; apply Rmult_le_compat_l; try assumption; nra.
Qed.

Lemma one_minus_ecos_pos (self : KeplerOrbit.t) (E : R) :
  Rabs (e self) < 1 -> 0 < 1 - e self * cos E /\ 0 < 1 + e self * cos E.
Proof.
  intros He.
  assert (Rabs (e self * cos E) < 1).
  { rewrite Rabs_mult.
    pose proof (COS_bound E) as [Hl Hu].
    assert (Rabs (cos E) <= 1) by (apply Rabs_le; lra).
    pose proof (Rabs_pos (e self)). pose proof (Rabs_pos (cos E)). nra. }
  apply Rabs_def2 in H; lra.
Qed.

(** The vis-viva radicand, rewritten. *)
Lemma vis_viva_radicand (self : KeplerOrbit.t) (E : R) :
  Rabs (e self) < 1 -> a self <> 0 ->
  2 / _getDistance self E - 1 / a self
  = / a self * ((1 + e self * cos E) / (1 - e self * cos E)).
Proof.
  intros He Ha; destruct (one_minus_ecos_pos self E He) as [H1 H2].
  unfold _getDistance; field; split; lra.
Qed.

(** For elements in their domains every call returns, given enough fuel. *)
Lemma updatePosition_returns (self : KeplerOrbit.t) (time : Datetime.datetime) :
  Rabs (e self) < 1 -> 0 < a self -> T self <> 0 -> 0 <= my self ->
  exists N, forall fuel, (N <= fuel)%nat ->
    exists E, _getEccentricAnomaly fuel self (meanAnomaly self time) = Ok E
      /\ updatePosition fuel self time = (updated self E, Ok tt).
Proof.
  intros He Ha HT Hmy.
  destruct (solver_terminates self (meanAnomaly self time) He) as [N HN].
  exists N; intros fuel Hfuel. destruct (HN fuel Hfuel) as [E HE].
  exists E; split; [exact HE|].
  destruct (one_minus_ecos_pos self E He) as [H1 H2].
  apply Rabs_def2 in He as [He1 He2].
  apply updatePosition_Ok_intro; try assumption; try lra.
  - apply Rlt_le, Rdiv_lt_0_compat; lra.
  - unfold _getDistance; nra.
  - rewrite vis_viva_radicand by (try apply Rabs_def1; lra).
    apply Rmult_le_pos; [exact Hmy|].
    apply Rmult_le_pos; [apply Rlt_le, Rinv_0_lt_compat; lra|].
    apply Rlt_le, Rdiv_lt_0_compat; lra.
Qed.

End OrbitFacts.

Section OrbitClaims.

Import Py.
Import KeplerOrbit.
Import Kepler.
Open Scope R_scope.

Lemma valid_abs (self : KeplerOrbit.t) : valid self -> Rabs (e self) < 1.
Proof. intros [[H0 H1] _]; rewrite Rabs_pos_eq; lra. Qed.

Lemma earth_valid : valid earth.
Proof. unfold valid, earth, fresh; cbn [e a T my]; lra. Qed.

(** C10.  A call to [updatePosition], whatever the time and however it
    ends, leaves the element fields [e], [a], [T], [O], [o], [M], [my] and
    [epoch] as they were: only [f], [r] and [v] are assigned. *)
Theorem updatePosition_keeps_elements
    (fuel : nat) (self : KeplerOrbit.t) (time : Datetime.datetime) :
  let self' := fst (updatePosition fuel self time) in
  e self' = e self /\ a self' = a self /\ T self' = T self
  /\ O self' = O self /\ o self' = o self /\ M self' = M self
  /\ my self' = my self /\ epoch self' = epoch self.
Proof.
  unfold updatePosition.
  destruct (_getMeanAnomaly self _) as [m| |]; [|cbn; auto 10..].
  destruct (_getEccentricAnomaly fuel self _) as [E| |]; [|cbn; auto 10..].
  destruct (_getTrueAnomaly self E) as [f'| |]; [|cbn; auto 10..].
  match goal with |- context [_getSpeed ?s] => destruct (_getSpeed s) end;
    cbn; auto 10.
Qed.

(** C7.  For elements in their domains and any time, the call returns
    (given enough fuel), and the distance it stores lies between
    [a(1-e)] and [a(1+e)]. *)
Theorem distance_between_apsides
    (self : KeplerOrbit.t) (time : Datetime.datetime) :
  valid self ->
  (exists N, forall fuel, (N <= fuel)%nat ->
     exists self', updatePosition fuel self time = (self', Ok tt))
  /\ (forall fuel self', updatePosition fuel self time = (self', Ok tt) ->
        exists r0, r self' = Some r0
          /\ a self * (1 - e self) <= r0 <= a self * (1 + e self)).
Proof.
  intros Hv; pose proof (valid_abs self Hv) as Habs.
  destruct Hv as ([He0 He1] & Ha & HT & Hmy).
  split.
  - destruct (updatePosition_returns self time Habs Ha) as [N HN]; try lra.
    exists N; intros fuel Hfuel.
    destruct (HN fuel Hfuel) as (E & _ & HE); eauto.
  - intros fuel self' H.
    apply updatePosition_Ok_inv in H as (E & _ & _ & _ & _ & _ & _ & _ & ->).
    exists (_getDistance self E); split; [reflexivity|].
    apply distance_bounds; lra.
Qed.

Lemma distance_between_apsides_witness :
  valid earth
  /\ (exists N, forall fuel, (N <= fuel)%nat ->
        exists self',
          updatePosition fuel earth (epoch earth) = (self', Ok tt))
  /\ (forall fuel self',
        updatePosition fuel earth (epoch earth) = (self', Ok tt) ->
        exists r0, r self' = Some r0
          /\ a earth * (1 - e earth) <= r0 <= a earth * (1 + e earth)).
Proof.
  split; [exact earth_valid|].
  exact (distance_between_apsides earth (epoch earth) earth_valid).
Defined.

Lemma meanAnomaly_at_epoch (self : KeplerOrbit.t) :
  T self <> 0 -> meanAnomaly self (epoch self) = M self.
Proof.
  intros HT; unfold meanAnomaly, Datetime.total_seconds.
  rewrite Z.sub_diag. unfold Datetime.us_per_second. field. exact HT.
Qed.

(** With [e = 0] the first value the loop computes is [M] itself. *)
Lemma solver_circular (self : KeplerOrbit.t) (fuel : nat) (M0 : R) :
  e self = 0 -> _getEccentricAnomaly (S fuel) self M0 = Ok M0.
Proof.
  intros He; unfold _getEccentricAnomaly. rewrite loop_eq.
  unfold step; rewrite He.
  replace (M0 + 0 * sin M0) with M0 by ring.
  rewrite isclose_refl; [reflexivity | apply Rlt_le, accuracy_pos].
Qed.

Lemma circular_full_turn_valid : valid circular_full_turn.
Proof. unfold valid, circular_full_turn, fresh; cbn [e a T my]; lra. Qed.

(** C5, as stated, fails.  On a circular orbit whose mean anomaly is a
    full turn the call stores the true anomaly 0, not the mean anomaly
    [2 * PI]: [atan] returns the principal value. *)
Lemma circular_true_anomaly_wraps :
  e circular_full_turn = 0
  /\ meanAnomaly circular_full_turn (epoch circular_full_turn) = 2 * PI
  /\ exists self',
       updatePosition 1 circular_full_turn (epoch circular_full_turn)
       = (self', Ok tt)
       /\ f self' = Some 0
       /\ f self'
          <> Some (meanAnomaly circular_full_turn (epoch circular_full_turn)).
Proof.
  assert (Hm : meanAnomaly circular_full_turn (epoch circular_full_turn)
               = 2 * PI).
  { rewrite meanAnomaly_at_epoch; [reflexivity | cbn; lra]. }
  split; [reflexivity|]. split; [exact Hm|].
  exists (updated circular_full_turn (2 * PI)).
  assert (Hf : f_of circular_full_turn (2 * PI) = 0).
  { unfold f_of; cbn [e circular_full_turn fresh].
    replace (2 * PI / 2) with PI by field.
    rewrite tan_PI, Rmult_0_r, atan_0; ring. }
  assert (Hr : _getDistance circular_full_turn (2 * PI) = 1).
  { unfold _getDistance; cbn [e a circular_full_turn fresh]; ring. }
  split; [|split].
  - apply updatePosition_Ok_intro; rewrite ?Hm, ?Hr;
      cbn [e a T my circular_full_turn fresh]; try lra.
    now apply solver_circular.
  - cbn [f updated set_v set_r set_f]. now rewrite Hf.
  - cbn [f updated set_v set_r set_f]. rewrite Hf, Hm.
    intros H; injection H as H. pose proof PI_RGT_0; lra.
Qed.

(** C5, amended.  On a circular orbit ([e = 0], the other elements in
    their domains) the solver returns the mean anomaly itself, the stored
    distance is [a] and the stored speed [sqrt(my / a)] at every time;
    the stored true anomaly is [2 * atan(tan(M / 2))], which is [M] when
    [M] lies strictly between [-PI] and [PI]. *)
Theorem circular_orbit_state
    (self : KeplerOrbit.t) (time : Datetime.datetime) (fuel : nat) :
  valid self -> e self = 0 -> (1 <= fuel)%nat ->
  let m := meanAnomaly self time in
  _getEccentricAnomaly fuel self m = Ok m
  /\ exists self',
       updatePosition fuel self time = (self', Ok tt)
       /\ f self' = Some (2 * atan (tan (m / 2)))
       /\ (- PI < m < PI -> f self' = Some m)
       /\ r self' = Some (a self)
       /\ v self' = Some (sqrt (my self / a self)).
Proof.
  intros ([He0 He1] & Ha & HT & Hmy) He Hfuel m.
  destruct fuel as [|fuel]; [lia|].
  pose proof (solver_circular self fuel m He) as HE.
  split; [exact HE|].
  assert (Hr : _getDistance self m = a self).
  { unfold _getDistance; rewrite He; ring. }
  assert (Hf : f_of self m = 2 * atan (tan (m / 2))).
  { unfold f_of; rewrite He.
    replace ((1 + 0) / (1 - 0)) with 1 by field.
    now rewrite sqrt_1, Rmult_1_l. }
  assert (Hv : v_of self m = sqrt (my self / a self)).
  { unfold v_of; rewrite Hr; f_equal; field; lra. }
  exists (updated self m); split; [|repeat split].
  - apply updatePosition_Ok_intro; rewrite ?Hr, ?He; try lra.
    + exact HE.
    + replace (2 / a self - 1 / a self) with (/ a self) by (field; lra).
      apply Rmult_le_pos; [lra | apply Rlt_le, Rinv_0_lt_compat; lra].
  - cbn [f updated set_v set_r set_f]; now rewrite Hf.
  - intros Hm. cbn [f updated set_v set_r set_f]; rewrite Hf.
    rewrite atan_tan by lra. f_equal; field.
  - cbn [r updated set_v set_r set_f]; now rewrite Hr.
  - cbn [v updated set_v set_r set_f]; now rewrite Hv.
Qed.

Lemma circular_orbit_state_witness :
  let self := circular_full_turn in
  let m := meanAnomaly self (epoch self) in
  _getEccentricAnomaly 1 self m = Ok m
  /\ exists self',
       updatePosition 1 self (epoch self) = (self', Ok tt)
       /\ f self' = Some (2 * atan (tan (m / 2)))
       /\ (- PI < m < PI -> f self' = Some m)
       /\ r self' = Some (a self)
       /\ v self' = Some (sqrt (my self / a self)).
Proof.
  exact (circular_orbit_state circular_full_turn (epoch circular_full_turn) 1
           circular_full_turn_valid eq_refl (le_n 1)).
Defined.

(** *** The constructor *)

Lemma init_Ok_inv (fuel : nat) (e0 a0 T0 O0 o0 M0 my0 : R) (self : KeplerOrbit.t) :
  __init__ fuel e0 a0 T0 O0 o0 M0 my0 = Ok self ->
  updatePosition fuel (fresh e0 a0 T0 O0 o0 M0 my0)
    (epoch (fresh e0 a0 T0 O0 o0 M0 my0)) = (self, Ok tt).
Proof.
  unfold __init__.
  destruct (updatePosition _ _ _) as [s' [[]| |]]; intros H;
    try discriminate.
  now injection H as ->.
Qed.

Lemma init_Ok_intro (fuel : nat) (e0 a0 T0 O0 o0 M0 my0 : R) (self : KeplerOrbit.t) :
  updatePosition fuel (fresh e0 a0 T0 O0 o0 M0 my0)
    (epoch (fresh e0 a0 T0 O0 o0 M0 my0)) = (self, Ok tt) ->
  __init__ fuel e0 a0 T0 O0 o0 M0 my0 = Ok self.
Proof. unfold __init__; now intros ->. Qed.

Lemma init_T_zero (fuel : nat) (e0 a0 O0 o0 M0 my0 : R) :
  __init__ fuel e0 a0 0 O0 o0 M0 my0 = Raise ZeroDivisionError.
Proof.
  unfold __init__, updatePosition, _getMeanAnomaly; cbn [T fresh].
  now rewrite truediv_zero.
Qed.

Lemma quotient_negative (e0 : R) : 1 < e0 -> (1 + e0) / (1 - e0) < 0.
Proof.
  intros H; unfold Rdiv.
  assert (/ (1 - e0) < 0) by (apply Rinv_lt_0_compat; lra).
  nra.
Qed.

(** C3, as stated, fails.  A negative period is outside its domain, yet
    the constructor returns an object. *)
Lemma negative_period_constructs :
  ~ 0 < -1 /\ exists self, __init__ 1 0 1 (-1) 0 0 0 1 = Ok self.
Proof.
  split; [lra|].
  set (s0 := fresh 0 1 (-1) 0 0 0 1).
  exists (updated s0 0).
  apply init_Ok_intro; fold s0.
  assert (Hm : meanAnomaly s0 (epoch s0) = 0).
  { rewrite meanAnomaly_at_epoch; [reflexivity | cbn; lra]. }
  assert (Hr : _getDistance s0 0 = 1).
  { unfold _getDistance; cbn [e a s0 fresh]; ring. }
  apply updatePosition_Ok_intro; rewrite ?Hm, ?Hr;
    cbn [e a T my s0 fresh]; try lra.
  now apply solver_circular.
Qed.

(** C3, amended.  The constructor checks nothing itself: it produces no
    object exactly where its first call to [updatePosition] raises or does
    not return.  That is the case for [e >= 1], [a = 0], [T = 0] and, for
    [|e| < 1], when [a] and [my] have strictly opposite signs.  For
    [|e| < 1], [a > 0], [T <> 0] and [my >= 0] (so also for a negative
    [e] or [T], or [my = 0]) it returns an object holding the seven
    arguments unchanged. *)
Theorem constructor_outcomes (e0 a0 T0 O0 o0 M0 my0 : R) :
  (rejected e0 a0 T0 my0 ->
   forall fuel, isOk (__init__ fuel e0 a0 T0 O0 o0 M0 my0) = false)
  /\ (accepted e0 a0 T0 my0 ->
      exists N, forall fuel, (N <= fuel)%nat ->
        exists self, __init__ fuel e0 a0 T0 O0 o0 M0 my0 = Ok self
          /\ e self = e0 /\ a self = a0 /\ T self = T0 /\ O self = O0
          /\ o self = o0 /\ M self = M0 /\ my self = my0).
Proof.
  split.
  - intros Hrej fuel.
    destruct (__init__ fuel e0 a0 T0 O0 o0 M0 my0) as [self| |] eqn:Hi;
      [exfalso | reflexivity | reflexivity].
    apply init_Ok_inv, updatePosition_Ok_inv in Hi
      as (E & _ & HT & He & Hq & Hr & Ha & Hs & _).
    set (s0 := fresh e0 a0 T0 O0 o0 M0 my0) in *.
    assert (Hvv : Rabs e0 < 1 -> a0 <> 0 ->
              0 <= my0 * (/ a0 * ((1 + e0 * cos E) / (1 - e0 * cos E)))
              /\ 0 < (1 + e0 * cos E) / (1 - e0 * cos E)).
    { intros H1 H2.
      rewrite (vis_viva_radicand s0 E H1 H2) in Hs.
      destruct (one_minus_ecos_pos s0 E H1) as [Hp1 Hp2].
      split; [exact Hs | apply Rdiv_lt_0_compat; assumption]. }
    cbn [e a T my s0 fresh] in HT, He, Hq, Ha.
    destruct Hrej as [H|[H|[H|[(H1 & H2 & H3)|(H1 & H2 & H3)]]]].
    + assert (1 < e0) by lra.
      pose proof (quotient_negative e0 ltac:(assumption)); lra.
    + now apply Ha.
    + now apply HT.
    + destruct (Hvv H1 Ha) as [Hs' Hpos].
      assert (/ a0 < 0) by (apply Rinv_lt_0_compat; lra).
      assert (/ a0 * ((1 + e0 * cos E) / (1 - e0 * cos E)) < 0) by nra.
      nra.
    + destruct (Hvv H1 Ha) as [Hs' Hpos].
      assert (0 < / a0) by (apply Rinv_0_lt_compat; lra).
      assert (0 < / a0 * ((1 + e0 * cos E) / (1 - e0 * cos E))) by nra.
      nra.
  - intros (He & Ha & HT & Hmy).
    set (s0 := fresh e0 a0 T0 O0 o0 M0 my0).
    destruct (updatePosition_returns s0 (epoch s0) He Ha HT Hmy) as [N HN].
    exists N; intros fuel Hfuel.
    destruct (HN fuel Hfuel) as (E & _ & HE).
    exists (updated s0 E); split; [now apply init_Ok_intro|].
    repeat split.
Qed.

Lemma constructor_outcomes_witness :
  (rejected 1 1 1 1 /\ forall fuel, isOk (__init__ fuel 1 1 1 0 0 0 1) = false)
  /\ (accepted 0 1 (-1) 0
      /\ exists N, forall fuel, (N <= fuel)%nat ->
           exists self, __init__ fuel 0 1 (-1) 0 0 0 0 = Ok self
             /\ e self = 0 /\ a self = 1 /\ T self = -1 /\ O self = 0
             /\ o self = 0 /\ M self = 0 /\ my self = 0).
Proof.
  assert (Hrej : rejected 1 1 1 1) by (left; lra).
  assert (Hacc : accepted 0 1 (-1) 0).
  { unfold accepted; rewrite Rabs_R0; repeat split; lra. }
  split; split; try assumption.
  - exact (proj1 (constructor_outcomes 1 1 1 0 0 0 1) Hrej).
  - exact (proj2 (constructor_outcomes 0 1 (-1) 0 0 0 0) Hacc).
Defined.

End OrbitClaims.

Section SolverClaims.

Import Py.
Import KeplerOrbit.
Import Kepler.
Open Scope R_scope.

Lemma residual_of_step (self : KeplerOrbit.t) (M0 prevE : R) :
  residual self M0 (step self M0 prevE)
  = e self * (sin prevE - sin (step self M0 prevE)).
Proof. unfold residual, step; ring. Qed.

Lemma INR_1000 : INR 1000 = 1000.
Proof. rewrite INR_IZR_INZ; apply f_equal; reflexivity. Qed.




(** *** The iteration cap *)

Lemma near_parabolic_iterates (k : nat) :
  let E := fun n => iterate near_parabolic (1 / 1000) n (1 / 1000) in
  0 <= E k /\ E k <= E (S k) /\ E (S k) <= 1 / 10
  /\ (49 / 50) ^ k * (98 / 100000) <= E (S k) - E k.
Proof.
  intros E; induction k as [|k (H0 & H1 & H2 & H3)].
  - unfold E, iterate; cbn [Nat.iter nat_rect]; unfold step;
      cbn [e near_parabolic fresh pow].
    pose proof (sin_cubic_lb (1 / 1000) ltac:(lra)) as Hl.
    pose proof (sin_le_id (1 / 1000) ltac:(lra)) as Hu.
    lra.
  - assert (Hstep : forall n, E (S n) = 1 / 1000 + 99 / 100 * sin (E n)).
    { intros n; unfold E; rewrite iterate_S; reflexivity. }
    set (x := E k) in *; set (y := E (S k)) in *.
    assert (Hd0 : 0 <= y - x).
    { eapply Rle_trans; [|exact H3].
      apply Rmult_le_pos; [apply pow_le|]; lra. }
    assert (Hdiff : E (S (S k)) - y
                    = 99 / 100 * (2 * cos ((y + x) / 2) * sin ((y - x) / 2))).
    { rewrite Hstep; fold y; unfold y at 2; rewrite Hstep; fold x.
      rewrite <- form4; ring. }
    assert (Hcos : 995 / 1000 <= cos ((y + x) / 2)).
    { eapply Rle_trans; [|apply cos_quadratic_lb]. nra. }
    set (h := (y - x) / 2) in *.
    assert (Hh : 0 <= h <= 1 / 20) by (unfold h; lra).
    assert (Hsin : 999 / 1000 * h <= sin h).
    { eapply Rle_trans; [|apply sin_cubic_lb; lra].
      assert (h ^ 3 <= h * (1 / 400)) by nra.
      lra. }
    assert (Hprod : 995 / 1000 * (999 / 1000 * h) <= cos ((y + x) / 2) * sin h).
    { assert (0 <= 999 / 1000 * h) by lra. nra. }
    assert (Hgrow : 49 / 50 * (y - x) <= E (S (S k)) - y).
    { rewrite Hdiff. unfold h in Hprod |- *. lra. }
    repeat split.
    + lra.
    + lra.
    + rewrite Hstep; fold y.
      pose proof (sin_le_id y ltac:(lra)). lra.
    + cbn [pow]. eapply Rle_trans; [|exact Hgrow].
      rewrite Rmult_assoc. apply Rmult_le_compat_l; lra.
Qed.

(** C1, the iteration cap.  With [e = 0.99] and [M = 0.001] the loop body
    has run 102 times and the solver has not returned: the counter
    [iterations] is never incremented, so the cap of [_maxIterations]
    does not stop the loop.  (It does return later, once two successive
    values are close.) *)
Theorem near_parabolic_exceeds_cap :
  0 <= e near_parabolic < 1
  /\ _getEccentricAnomaly 102 near_parabolic (1 / 1000) = OutOfFuel
  /\ __init__ 102 (99 / 100) 1 1 0 0 (1 / 1000) 1 = OutOfFuel
  /\ exists N E, _getEccentricAnomaly N near_parabolic (1 / 1000) = Ok E.
Proof.
  assert (Hrun : _getEccentricAnomaly 102 near_parabolic (1 / 1000) = OutOfFuel).
  { unfold _getEccentricAnomaly; apply loop_runs; intros k Hk.
    destruct (near_parabolic_iterates k) as (H0 & H1 & H2 & H3).
    cbv beta in H0, H1, H2, H3.
    set (x := iterate near_parabolic (1 / 1000) k (1 / 1000)) in *.
    set (y := iterate near_parabolic (1 / 1000) (S k) (1 / 1000)) in *.
    apply Rleb_false.
    assert (Hpow : (49 / 50) ^ 101 <= (49 / 50) ^ k)
      by (apply pow_antitone; [lra | lia]).
    assert (Hc : 1 / 10 <= (49 / 50) ^ 101) by lra.
    rewrite (Rabs_pos_eq (y - x)), (Rabs_pos_eq y), (Rabs_pos_eq x) by lra.
    apply Rmax_lub_lt.
    - assert (Rmax y x <= 1 / 10) by (apply Rmax_lub; lra).
      unfold rel_tol; lra.
    - unfold _accuracy; lra. }
  split; [cbn; lra|]. split; [exact Hrun|]. split.
  - unfold __init__, updatePosition, _getMeanAnomaly.
    rewrite truediv_ok by (cbn; lra).
    match goal with
    | |- context [_getEccentricAnomaly 102 ?s ?m] =>
        replace m with (1 / 1000)
    end.
    + fold near_parabolic; now rewrite Hrun.
    + cbn [T M epoch fresh]. rewrite Z.sub_diag.
      unfold Datetime.total_seconds, Datetime.us_per_second. field.
  - destruct (solver_terminates near_parabolic (1 / 1000)) as [N HN].
    + cbn [e near_parabolic fresh]; rewrite Rabs_pos_eq; lra.
    + destruct (HN N (Nat.le_refl N)) as [E HE]. now exists N, E.
Qed.

End SolverClaims.

(** ** The calendar *)

Section CalendarFacts.

Import Py.
Import Datetime.
Import Calendar.
Open Scope Z_scope.

Lemma check_from_spec (f : Z -> bool) (len : nat) : forall i,
  check_from f len i = true ->
  forall j, i <= j < i + Z.of_nat len -> f j = true.
Proof.
  induction len as [|len IH]; intros i H j Hj; [lia|].
  cbn [check_from] in H. apply andb_true_iff in H as [H1 H2].
  destruct (Z.eq_dec j i) as [->|Hne]; [exact H1|].
  apply (IH (i + 1) H2). lia.
Qed.

Lemma month_day_spec (leap : bool) (r : Z) :
  0 <= r < 365 -> month_day_ok leap r = true.
Proof.
  intros Hr.
  assert (H : check_from (fun i => month_day_ok true i && month_day_ok false i)
                365 0 = true) by (vm_compute; reflexivity).
  pose proof (check_from_spec _ _ _ H r ltac:(lia)) as Hb.
  apply andb_true_iff in Hb as [Ht Hf]. now destruct leap.
Qed.

Lemma ord2ymd_spec (n : Z) :
  let '(y, m, d) := _ord2ymd n in
  _ymd2ord y m d = n /\ 1 <= m <= 12 /\ 1 <= d <= _days_in_month y m.
Proof.
  unfold _ord2ymd; cbv zeta.
  unfold _DI400Y, _DI100Y, _DI4Y.
  set (n0 := n - 1).
  set (a := n0 / 146097). set (na := n0 mod 146097).
  set (b := na / 36524). set (nb := na mod 36524).
  set (c := nb / 1461). set (nc := nb mod 1461).
  set (e1 := nc / 365). set (r := nc mod 365).
  assert (Hn0 : n0 = 146097 * a + na /\ 0 <= na < 146097).
  { unfold a, na; split; [apply Z.div_mod; lia | apply Z.mod_pos_bound; lia]. }
  assert (Hna : na = 36524 * b + nb /\ 0 <= nb < 36524).
  { unfold b, nb; split; [apply Z.div_mod; lia | apply Z.mod_pos_bound; lia]. }
  assert (Hnb : nb = 1461 * c + nc /\ 0 <= nc < 1461).
  { unfold c, nc; split; [apply Z.div_mod; lia | apply Z.mod_pos_bound; lia]. }
  assert (Hnc : nc = 365 * e1 + r /\ 0 <= r < 365).
  { unfold e1, r; split; [apply Z.div_mod; lia | apply Z.mod_pos_bound; lia]. }
  clearbody a na b nb c nc e1 r.
  assert (Hb : 0 <= b <= 4) by lia.
  assert (Hc : 0 <= c <= 24) by lia.
  assert (He : 0 <= e1 <= 4) by lia.
  set (year := a * 400 + 1 + b * 100 + c * 4 + e1).
  destruct ((e1 =? 4) || (b =? 4)) eqn:Hsp.
  - (* last day of a leap year *)
    assert (Hy : (year - 1) mod 4 = 0 /\ ((year - 1) mod 100 <> 0 \/ (year - 1) mod 400 = 0)
                 /\ _days_before_year (year - 1) + 366 = n).
    { unfold _days_before_year, year.
      apply orb_true_iff in Hsp as [Hsp|Hsp]; apply Z.eqb_eq in Hsp;
        Z.div_mod_to_equations; lia. }
    destruct Hy as (H4 & H100 & Hd).
    assert (Hleap : _is_leap (year - 1) = true).
    { unfold _is_leap. apply andb_true_iff; split; [now apply Z.eqb_eq|].
      apply orb_true_iff. destruct H100 as [H|H].
      - left; apply negb_true_iff, Z.eqb_neq; exact H.
      - right; now apply Z.eqb_eq. }
    unfold _ymd2ord, _days_before_month, _days_in_month. rewrite Hleap.
    cbn. lia.
  - apply orb_false_iff in Hsp as [He4 Hb4].
    apply Z.eqb_neq in He4, Hb4.
    set (leap := (e1 =? 3) && (negb (c =? 24) || (b =? 3))).
    assert (Hleap : _is_leap year = leap).
    { unfold _is_leap, leap, year.
      assert (H4 : ((a * 400 + 1 + b * 100 + c * 4 + e1) mod 4 =? 0) = (e1 =? 3)).
      { apply eq_true_iff_eq; rewrite !Z.eqb_eq; Z.div_mod_to_equations; lia. }
      assert (H100 : ((a * 400 + 1 + b * 100 + c * 4 + e1) mod 100 =? 0)
                     = (e1 =? 3) && (c =? 24)).
      { apply eq_true_iff_eq; rewrite andb_true_iff, !Z.eqb_eq;
          Z.div_mod_to_equations; lia. }
      assert (H400 : ((a * 400 + 1 + b * 100 + c * 4 + e1) mod 400 =? 0)
                     = (e1 =? 3) && (c =? 24) && (b =? 3)).
      { apply eq_true_iff_eq; rewrite !andb_true_iff, !Z.eqb_eq;
          Z.div_mod_to_equations; lia. }
      rewrite H4, H100, H400.
      destruct (e1 =? 3), (c =? 24), (b =? 3); reflexivity. }
    assert (Hdby : _days_before_year year = n0 - r).
    { unfold _days_before_year, year. Z.div_mod_to_equations; lia. }
    pose proof (month_day_spec leap r (proj2 Hnc)) as Hmd.
    unfold month_day_ok, month_day in Hmd; cbv zeta in Hmd.
    set (month := Z.shiftr (r + 50) 5) in *.
    set (preceding :=
           _DAYS_BEFORE_MONTH month + (if (month >? 2) && leap then 1 else 0)) in *.
    destruct (preceding >? r);
      rewrite !andb_true_iff in Hmd;
      destruct Hmd as ((((H1 & H2) & H3) & H4) & H5);
      unfold _ymd2ord, _days_before_month, _days_in_month; rewrite Hleap, Hdby;
      apply Z.leb_le in H1, H2, H3, H4; apply Z.eqb_eq in H5;
      unfold n0; repeat split; lia.
Qed.

Lemma datetime_split (dt : datetime) :
  dt = toordinal dt * us_per_day + time_of_day dt.
Proof.
  unfold toordinal, time_of_day, us_per_day, us_per_second.
  rewrite Z.mul_comm. apply Z.div_mod. lia.
Qed.

Lemma month_cases (m : Z) : 1 <= m <= 12 ->
  m = 1 \/ m = 2 \/ m = 3 \/ m = 4 \/ m = 5 \/ m = 6 \/ m = 7 \/ m = 8
  \/ m = 9 \/ m = 10 \/ m = 11 \/ m = 12.
Proof. lia. Qed.

Lemma days_before_year_step (y k : Z) :
  0 <= k ->
  365 * k <= _days_before_year (y + k) - _days_before_year y + 1
  /\ _days_before_year (y + k) - _days_before_year y <= 366 * k.
Proof.
  intros Hk; unfold _days_before_year. Z.div_mod_to_equations; lia.
Qed.

Lemma add_relativedelta_time_only (dt : datetime) (rd : relativedelta) :
  years rd = 0 -> months rd = 0 ->
  add_relativedelta dt rd
  = dt + (days rd * 86400 + hours rd * 3600 + minutes rd * 60 + seconds rd)
         * us_per_second.
Proof.
  intros Hy Hm; unfold add_relativedelta.
  pose proof (ord2ymd_spec (toordinal dt)) as H.
  destruct (_ord2ymd (toordinal dt)) as [[y m] d].
  destruct H as (Ho & Hmr & Hd).
  rewrite Hy, Hm, !Z.add_0_r.
  replace (m >? 12) with false by (symmetry; rewrite Z.gtb_ltb; apply Z.ltb_ge; lia).
  replace (m <? 1) with false by (symmetry; apply Z.ltb_ge; lia).
  rewrite Z.min_r by lia. rewrite Ho.
  rewrite (datetime_split dt) at 3. reflexivity.
Qed.

Lemma add_relativedelta_calendar (dt : datetime) (dy dm : Z) :
  exists y m d,
    _ymd2ord y m d = toordinal dt /\ 1 <= m <= 12
    /\ 1 <= d <= _days_in_month y m
    /\ add_relativedelta dt (mk_relativedelta dy dm 0 0 0 0) - dt
       = (shifted_ordinal y m d dy dm - _ymd2ord y m d) * us_per_day.
Proof.
  pose proof (ord2ymd_spec (toordinal dt)) as H.
  unfold add_relativedelta, shifted_ordinal.
  destruct (_ord2ymd (toordinal dt)) as [[y m] d].
  destruct H as (Ho & Hmr & Hd).
  exists y, m, d; repeat split; try lia.
  cbn [years months days hours minutes seconds].
  destruct (if m + dm >? 12 then _ else _) as [year month].
  rewrite Ho. rewrite (datetime_split dt) at 2. lia.
Qed.

Ltac each_month m Hm :=
  let Hc := fresh "Hc" in
  pose proof (month_cases m Hm) as Hc;
  repeat (destruct Hc as [Hc|Hc]); subst m.

Ltac leap_bounds :=
  repeat match goal with
  | |- context [_is_leap ?y] =>
      let b := fresh "leap" in
      generalize (_is_leap y); intros b; destruct b
  end.

Lemma shift_years (y m d k : Z) :
  1 <= m <= 12 -> 1 <= d <= _days_in_month y m ->
  (0 < k -> 1 <= shifted_ordinal y m d k 0 - _ymd2ord y m d)
  /\ (k < 0 -> shifted_ordinal y m d k 0 - _ymd2ord y m d <= -1).
Proof.
  intros Hm Hd. unfold shifted_ordinal.
  rewrite Z.add_0_r.
  replace (m >? 12) with false by (symmetry; rewrite Z.gtb_ltb; apply Z.ltb_ge; lia).
  replace (m <? 1) with false by (symmetry; apply Z.ltb_ge; lia).
  unfold _ymd2ord, _days_before_month, _days_in_month in *.
  split; intros Hk.
  - pose proof (days_before_year_step y k ltac:(lia)) as Hs.
    each_month m Hm;
      cbn in Hd |- *; revert Hd; leap_bounds; cbn; lia.
  - pose proof (days_before_year_step (y + k) (- k) ltac:(lia)) as Hs.
    replace (y + k + - k) with y in Hs by ring.
    each_month m Hm;
      cbn in Hd |- *; revert Hd; leap_bounds; cbn; lia.
Qed.

Lemma shift_months (y m d k : Z) :
  1 <= m <= 12 -> 1 <= d <= _days_in_month y m ->
  (k = 1 \/ k = 6 -> 1 <= shifted_ordinal y m d 0 k - _ymd2ord y m d)
  /\ (k = -1 \/ k = -6 -> shifted_ordinal y m d 0 k - _ymd2ord y m d <= -1).
Proof.
  intros Hm Hd. unfold shifted_ordinal.
  rewrite Z.add_0_r.
  pose proof (days_before_year_step y 1 ltac:(lia)) as Hup.
  pose proof (days_before_year_step (y - 1) 1 ltac:(lia)) as Hdown.
  replace (y - 1 + 1) with y in Hdown by ring.
  unfold _ymd2ord, _days_before_month, _days_in_month in *.
  split; intros [-> | ->];
    each_month m Hm;
    cbn in Hd |- *; revert Hd; leap_bounds; cbn; lia.
Qed.

Lemma Zfloor_div (n d : Z) : 0 < d -> Zfloor (IZR n / IZR d) = n / d.
Proof.
  intros Hd. apply Zfloor_eq.
  pose proof (Z.div_mod n d ltac:(lia)) as Hdm.
  pose proof (Z.mod_pos_bound n d Hd) as Hb.
  assert (HR : (IZR n = IZR d * IZR (n / d) + IZR (n mod d))%R).
  { rewrite <- mult_IZR, <- plus_IZR. now f_equal. }
  assert (Hd' : (0 < IZR d)%R) by (apply IZR_lt; lia).
  assert (Hm0 : (0 <= IZR (n mod d))%R) by (apply IZR_le; lia).
  assert (Hm1 : (IZR (n mod d) < IZR d)%R) by (apply IZR_lt; lia).
  rewrite HR. split.
  - apply Rmult_le_reg_r with (IZR d); [exact Hd'|].
    unfold Rdiv; rewrite Rmult_assoc, Rinv_l by lra. lra.
  - apply Rmult_lt_reg_r with (IZR d); [exact Hd'|].
    unfold Rdiv; rewrite Rmult_assoc, Rinv_l by lra. lra.
Qed.

Lemma timedelta_div (delta fps : Z) :
  0 < fps ->
  timedelta_of_seconds (total_seconds delta / IZR fps)
  = div_half_even delta fps.
Proof.
  intros Hf.
  assert (Hd' : (0 < IZR fps)%R) by (apply IZR_lt; lia).
  unfold timedelta_of_seconds, total_seconds, round_half_even, div_half_even.
  replace (IZR delta / IZR us_per_second / IZR fps * IZR us_per_second)%R
    with (IZR delta / IZR fps)%R
    by (unfold us_per_second; field; lra).
  rewrite (Zfloor_div delta fps Hf).
  pose proof (Z.div_mod delta fps ltac:(lia)) as Hdm.
  pose proof (Z.mod_pos_bound delta fps Hf) as Hb.
  set (q := delta / fps) in *. set (m := delta mod fps) in *.
  assert (Hfrac : (IZR delta / IZR fps - IZR q = IZR m / IZR fps)%R).
  { rewrite Hdm, plus_IZR, mult_IZR. field. lra. }
  rewrite Hfrac.
  assert (Hx : (IZR m / IZR fps * IZR fps = IZR m)%R) by (field; lra).
  set (x := (IZR m / IZR fps)%R) in *.
  assert (Hlt : Rltb x (1 / 2) = (2 * m <? fps)).
  { apply eq_true_iff_eq. rewrite Rltb_true, Z.ltb_lt. split; intros H.
    - apply lt_IZR. rewrite mult_IZR. nra.
    - apply IZR_lt in H. rewrite mult_IZR in H. nra. }
  assert (Hgt : Rltb (1 / 2) x = (fps <? 2 * m)).
  { apply eq_true_iff_eq. rewrite Rltb_true, Z.ltb_lt. split; intros H.
    - apply lt_IZR. rewrite mult_IZR. nra.
    - apply IZR_lt in H. rewrite mult_IZR in H. nra. }
  now rewrite Hlt, Hgt.
Qed.

Lemma div_half_even_bound (n d : Z) :
  0 < d -> 2 * Z.abs (d * div_half_even n d - n) <= d.
Proof.
  intros Hd; unfold div_half_even.
  pose proof (Z.div_mod n d ltac:(lia)) as Hdm.
  pose proof (Z.mod_pos_bound n d Hd) as Hb.
  destruct (2 * (n mod d) <? d) eqn:H1; [apply Z.ltb_lt in H1; lia|].
  apply Z.ltb_ge in H1.
  destruct (d <? 2 * (n mod d)) eqn:H2; [apply Z.ltb_lt in H2; lia|].
  apply Z.ltb_ge in H2.
  destruct (Z.even (n / d)); lia.
Qed.

End CalendarFacts.

(** ** The simulation clock *)

Section ClockFacts.

Import Py.
Import Datetime.
Import Calendar.
Import SolarSystem.
Import Clock.
Open Scope Z_scope.

Lemma ladder_direction (idx : Z) (rd : relativedelta) (dt : datetime) :
  0 <= idx -> getitem SPEED idx = Ok rd ->
  let delta := add_relativedelta dt rd - dt in
  (FREEZE_INDEX < idx -> us_per_second <= delta)
  /\ (idx < FREEZE_INDEX -> delta <= - us_per_second)
  /\ (idx = FREEZE_INDEX -> delta = 0).
Proof.
  intros Hidx Hget delta.
  assert (Hyears : forall k, k <> 0 ->
            let dl := add_relativedelta dt (rd_years k) - dt in
            (0 < k -> us_per_second <= dl) /\ (k < 0 -> dl <= - us_per_second)).
  { intros k Hk dl.
    destruct (add_relativedelta_calendar dt k 0) as (y & m & d & _ & Hm & Hd & He).
    destruct (shift_years y m d k Hm Hd) as [Hp Hn].
    unfold dl, rd_years; rewrite He.
    unfold us_per_day, us_per_second; split; intros H; [specialize (Hp H)|specialize (Hn H)]; nia. }
  assert (Hmonths : forall k,
            let dl := add_relativedelta dt (rd_months k) - dt in
            (k = 1 \/ k = 6 -> us_per_second <= dl)
            /\ (k = -1 \/ k = -6 -> dl <= - us_per_second)).
  { intros k dl.
    destruct (add_relativedelta_calendar dt 0 k) as (y & m & d & _ & Hm & Hd & He).
    destruct (shift_months y m d k Hm Hd) as [Hp Hn].
    unfold dl, rd_months; rewrite He.
    unfold us_per_day, us_per_second; split; intros H; [specialize (Hp H)|specialize (Hn H)]; nia. }
  assert (Htime : forall r, years r = 0 -> months r = 0 ->
            add_relativedelta dt r - dt
            = (days r * 86400 + hours r * 3600 + minutes r * 60 + seconds r)
              * us_per_second).
  { intros r Hy Hm; rewrite add_relativedelta_time_only by assumption; ring. }
  unfold getitem in Hget.
  replace (idx <? 0) with false in Hget by (symmetry; apply Z.ltb_ge; lia).
  destruct ((idx <? 0) || (Z.of_nat (length SPEED) <=? idx)); [discriminate|].
  destruct (nth_error SPEED (Z.to_nat idx)) as [rd'|] eqn:Hnth; [|discriminate].
  injection Hget as ->.
  rewrite <- (Z2Nat.id idx Hidx). set (k := Z.to_nat idx) in *. clearbody k.
  unfold FREEZE_INDEX, delta.
  do 25 (destruct k as [|k];
         [cbn in Hnth; injection Hnth as <-;
          first [ rewrite Htime by reflexivity; cbn [days hours minutes seconds rd_weeks rd_days rd_hours rd_minutes rd_seconds];
                  unfold us_per_second; lia
                | match goal with
                  | |- context [rd_years ?n] =>
                      destruct (Hyears n ltac:(lia)) as [Hp Hn];
                      unfold us_per_second in *; lia
                  | |- context [rd_months ?n] =>
                      destruct (Hmonths n) as [Hp Hn];
                      unfold us_per_second in *; lia
                  end ]
         |]).
  destruct k; discriminate.
Qed.

Lemma getitem_in_range (idx : Z) :
  0 <= idx < 25 -> exists rd, getitem SPEED idx = Ok rd.
Proof.
  intros H; unfold getitem; cbv zeta.
  assert (H0 : (idx <? 0) = false) by (apply Z.ltb_ge; lia).
  assert (H1 : (Z.of_nat (length SPEED) <=? idx) = false)
    by (apply Z.leb_gt; cbn; lia).
  rewrite !H0, H1; cbn [orb].
  destruct (nth_error SPEED (Z.to_nat idx)) as [rd|] eqn:Hn;
    [eexists; reflexivity|].
  apply nth_error_None in Hn. cbn [length SPEED] in Hn. lia.
Qed.

Lemma updateTimeStep_eq (s : SolarSystem.t) (rd : relativedelta) :
  0 < fps s -> getitem SPEED (speedIndex s) = Ok rd ->
  updateTimeStep s = Ok (retargeted s rd).
Proof.
  intros Hf Hg; unfold updateTimeStep, retargeted. rewrite Hg; cbn [bind].
  rewrite truediv_ok by (apply not_0_IZR; lia). cbn [bind].
  now rewrite timedelta_div.
Qed.

Lemma ticks_snoc (n : nat) : forall s,
  ticks (S n) s = bind (ticks n s) update.
Proof.
  induction n as [|n IH]; intros s.
  - cbn. now destruct (update s).
  - change (ticks (S (S n)) s) with (bind (update s) (ticks (S n))).
    change (ticks (S n) s) with (bind (update s) (ticks n)).
    destruct (update s) as [s'| |]; cbn [bind]; [apply IH | easy | easy].
Qed.

Lemma update_unreached (s : SolarSystem.t) :
  targetTimeReached s = false ->
  reached s (time s + timeStep s) = false ->
  update s = Ok (advance s 1).
Proof.
  intros Hflag Hr; unfold update. fold (reached s (time s + timeStep s)).
  rewrite Hr, Hflag. cbn [targetTimeReached].
  unfold advance. now rewrite Z.mul_1_l, Hflag.
Qed.

(** While the target is not reached the ticks only move the time. *)
Lemma ticks_unreached (n : nat) (s : SolarSystem.t) :
  targetTimeReached s = false ->
  (forall j, 1 <= j <= Z.of_nat n ->
     reached s (time s + j * timeStep s) = false) ->
  ticks n s = Ok (advance s (Z.of_nat n)).
Proof.
  intros Hflag; induction n as [|n IH]; intros Hr.
  - cbn [ticks Z.of_nat]. unfold advance.
    rewrite Z.mul_0_l, Z.add_0_r. now destruct s.
  - rewrite ticks_snoc, IH by (intros j Hj; apply Hr; lia).
    cbn [bind].
    rewrite update_unreached.
    + unfold advance; cbn [fps speedIndex targetTime timeStep
                            targetTimeReached paused pausIndex time].
      do 2 f_equal. lia.
    + exact Hflag.
    + unfold reached, advance in *; cbn [speedIndex targetTime time timeStep].
      specialize (Hr (Z.of_nat (S n)) ltac:(lia)).
      replace (time s + Z.of_nat n * timeStep s + timeStep s)
        with (time s + Z.of_nat (S n) * timeStep s) by lia.
      exact Hr.
Qed.

(** A tick moves the time by the time step and keeps the speed, whether
    or not it re-derives the target. *)
Lemma update_time (s : SolarSystem.t) (rd : relativedelta) :
  0 < fps s -> getitem SPEED (speedIndex s) = Ok rd ->
  exists s', update s = Ok s'
    /\ time s' = time s + timeStep s
    /\ speedIndex s' = speedIndex s /\ fps s' = fps s.
Proof.
  intros Hf Hg; unfold update.
  match goal with
  | |- context [if targetTimeReached ?x then _ else _] => set (s1 := x)
  end.
  destruct (targetTimeReached s1).
  - rewrite (updateTimeStep_eq s1 rd Hf Hg). eexists; repeat split.
  - eexists; repeat split.
Qed.




(** What the date key does to the clock: the time is set, and nothing
    else is touched. *)
Lemma date_jump_sets_time_only (s : SolarSystem.t) (d : datetime) :
  exists s', eventHandler s (K_F2 (Some d)) = Ok s'
    /\ time s' = d /\ speedIndex s' = speedIndex s
    /\ targetTime s' = targetTime s /\ timeStep s' = timeStep s
    /\ targetTimeReached s' = targetTimeReached s.
Proof. eexists; cbn; repeat split. Qed.

(** The speed keys and the pause key do ask for a new target. *)
Lemma speed_and_pause_force_retarget (s s' : SolarSystem.t) (ev : event) :
  paused s = false ->
  ev = K_LEFT \/ ev = K_RIGHT \/ ev = K_SPACE ->
  eventHandler s ev = Ok s' -> targetTimeReached s' = true.
Proof.
  intros Hp [->|[->| ->]]; cbn; unfold stepSpeed; rewrite Hp; cbn;
    intros H; injection H as <-; reflexivity.
Qed.

Lemma init_clock :
  SolarSystem.__init__
  = Ok (SolarSystem.mk 30 18 (mk_datetime 2000 2 1 12)
          (31 * us_per_day / 30) false false None (mk_datetime 2000 1 1 12)).
Proof.
  unfold SolarSystem.__init__.
  change (getitem SPEED (FREEZE_INDEX + 6)) with (Ok (rd_months 1)).
  cbn [bind].
  rewrite (updateTimeStep_eq _ (rd_months 1)); [|cbn; lia|reflexivity].
  apply f_equal. vm_compute. reflexivity.
Qed.

(** C4.  The date key sets the time to the date entered and leaves the
    speed index alone, but it does not re-derive target and time step.
    From the initial clock (one month per second, target 2000-02-01) a
    jump to 1999-02-01 keeps the old target and the old time step of
    31/30 days, although a fresh derivation would give 1999-03-01 and
    28/30 days; the next tick does not re-derive them either. *)
Theorem date_jump_keeps_stale_target :
  let d := mk_datetime 1999 2 1 12 in
  exists s0 s1 s1' s2,
    SolarSystem.__init__ = Ok s0
    /\ eventHandler s0 (K_F2 (Some d)) = Ok s1
    /\ time s1 = d /\ speedIndex s1 = speedIndex s0
    /\ targetTimeReached s1 = false
    /\ targetTime s1 = mk_datetime 2000 2 1 12
    /\ timeStep s1 = 31 * us_per_day / 30
    /\ updateTimeStep s1 = Ok s1'
    /\ targetTime s1' = mk_datetime 1999 3 1 12
    /\ timeStep s1' = 28 * us_per_day / 30
    /\ update s1 = Ok s2
    /\ targetTime s2 = mk_datetime 2000 2 1 12
    /\ timeStep s2 = 31 * us_per_day / 30
    /\ targetTimeReached s2 = false.
Proof.
  intros d.
  eexists; eexists; eexists; eexists.
  split; [exact init_clock|].
  split; [reflexivity|].
  cbn [time speedIndex targetTimeReached targetTime timeStep].
  do 5 (split; [reflexivity|]).
  split.
  { apply (updateTimeStep_eq _ (rd_months 1)); [cbn; lia | reflexivity]. }
  split; [vm_compute; reflexivity|].
  split; [vm_compute; reflexivity|].
  split; [vm_compute; reflexivity|].
  repeat split.
Qed.

End ClockFacts.

(** ** The screen projection *)

Section ProjectionFacts.

Import Py.
Import ZoomSprite.
Open Scope R_scope.

(** [Zfloor] rounds toward minus infinity, not to nearest. *)
Example floor_rounds_down :
  Zfloor (15 * 1 / 10) = 1%Z /\ Zfloor (- (15) * 1 / 10) = (-2)%Z.
Proof. split; apply Zfloor_eq; lra. Qed.

(** [Planet.update] places the rectangle from the position the orbit
    has after its update. *)
Lemma Planet_update_places (fuel : nat) (scale : R) (time : Datetime.datetime)
    (self : Planet) (orb : KeplerOrbit.t) (x y : R) (rc : Rect) :
  KeplerOrbit.updatePosition fuel (orbit self) time = (orb, Ok tt) ->
  KeplerOrbit.getCartesianPosition orb = Ok (x, y) ->
  Planet_place x y (zoom self) scale (origo self) (rect self) = Ok rc ->
  Planet_update fuel scale time self
  = (mk_planet (zoom self) (origo self) orb rc, Ok tt).
Proof.
  intros Hu Hp Hr; unfold Planet_update.
  rewrite Hu, Hp; cbn [bind fst snd]. now rewrite Hr.
Qed.

(** C9.  For a scale other than 0, the point [OrbitEllipse.redraw] draws
    for the offset [(x, y)] is
    [(floor(x * zoom / scale) + x0, floor(- y * zoom / scale) + y0)],
    the floor being the largest integer not above the quotient;
    [Planet.update] puts the sprite's rectangle so that this point is its
    centre; and the offset [(0, 0)] is drawn at the origin [(x0, y0)]. *)
Theorem screen_projection (x y zoom scale : R) (x0 y0 : Z) (rc : Rect) :
  scale <> 0 ->
  let sx := (Zfloor (x * zoom / scale) + x0)%Z in
  let sy := (Zfloor (- y * zoom / scale) + y0)%Z in
  redraw_point zoom scale x0 y0 (vertex (x, y)) = Ok (sx, sy)
  /\ (exists rc',
        Planet_place x y zoom scale (x0, y0) rc = Ok rc'
        /\ (rect_x rc' + width rc / 2 = sx)%Z
        /\ (rect_y rc' + height rc / 2 = sy)%Z
        /\ width rc' = width rc /\ height rc' = height rc)
  /\ IZR (sx - x0) <= x * zoom / scale < IZR (sx - x0) + 1
  /\ IZR (sy - y0) <= - y * zoom / scale < IZR (sy - y0) + 1
  /\ redraw_point zoom scale x0 y0 (vertex (0, 0)) = Ok (x0, y0)
  /\ Planet_place 0 0 zoom scale (x0, y0) rc
     = Ok (mk_rect (x0 - width rc / 2) (y0 - height rc / 2)
                   (width rc) (height rc)).
Proof.
  intros Hs sx sy.
  assert (Hz : forall u, u = 0 -> Zfloor (u / scale) = 0%Z).
  { intros u ->. apply Zfloor_eq. unfold Rdiv; rewrite Rmult_0_l; lra. }
  split; [|split; [|split; [|split; [|split]]]].
  - unfold redraw_point, vertex; cbn [fst snd].
    rewrite !floordiv_ok by exact Hs. cbn [bind].
    unfold sx, sy.
    replace (zoom * x) with (x * zoom) by ring.
    replace (zoom * - y) with (- y * zoom) by ring.
    reflexivity.
  - unfold Planet_place.
    rewrite !floordiv_ok by exact Hs. cbn [bind].
    eexists; split; [reflexivity|].
    cbn [rect_x rect_y width height]. unfold sx, sy. repeat split; lia.
  - unfold sx. replace (Zfloor (x * zoom / scale) + x0 - x0)%Z
      with (Zfloor (x * zoom / scale)) by lia.
    apply Zfloor_bound.
  - unfold sy. replace (Zfloor (- y * zoom / scale) + y0 - y0)%Z
      with (Zfloor (- y * zoom / scale)) by lia.
    apply Zfloor_bound.
  - unfold redraw_point, vertex; cbn [fst snd].
    rewrite !floordiv_ok by exact Hs. cbn [bind].
    rewrite !Hz by ring. reflexivity.
  - unfold Planet_place.
    rewrite !floordiv_ok by exact Hs. cbn [bind].
    rewrite !Hz by ring. do 2 f_equal; lia.
Qed.

Lemma screen_projection_witness :
  redraw_point 1 10 400 300 (vertex (15, -25)) = Ok (401%Z, 302%Z)
  /\ redraw_point 1 10 400 300 (vertex (-15, 25)) = Ok (398%Z, 297%Z)
  /\ redraw_point 1 10 400 300 (vertex (0, 0)) = Ok (400%Z, 300%Z).
Proof.
  assert (H10 : 10 <> 0) by lra.
  pose proof (screen_projection 15 (-25) 1 10 400 300 (mk_rect 0 0 4 4) H10)
    as (H1 & _ & _ & _ & H0 & _).
  pose proof (screen_projection (-15) 25 1 10 400 300 (mk_rect 0 0 4 4) H10)
    as (H2 & _).
  cbv zeta in H1, H2.
  replace (Zfloor (15 * 1 / 10)) with 1%Z in H1
    by (symmetry; apply Zfloor_eq; lra).
  replace (Zfloor (- -25 * 1 / 10)) with 2%Z in H1
    by (symmetry; apply Zfloor_eq; lra).
  replace (Zfloor (-15 * 1 / 10)) with (-2)%Z in H2
    by (symmetry; apply Zfloor_eq; lra).
  replace (Zfloor (- (25) * 1 / 10)) with (-3)%Z in H2
    by (symmetry; apply Zfloor_eq; lra).
  repeat split; assumption.
Defined.

End ProjectionFacts.

(** ** One full period later

    In exact arithmetic a full period adds [2 * PI] to the mean anomaly,
    every value the loop computes moves by [2 * PI] with it, and distance
    and true anomaly do not change when the eccentric anomaly moves by
    [2 * PI]. *)

Section PeriodFacts.

Import Py.
Import KeplerOrbit.
Import Kepler.
Open Scope R_scope.

Lemma sin_full_turn (x : R) : sin (x + 2 * PI) = sin x.
Proof.
  replace (x + 2 * PI) with (x + PI + PI) by ring.
  rewrite !neg_sin; ring.
Qed.

Lemma cos_full_turn (x : R) : cos (x + 2 * PI) = cos x.
Proof.
  replace (x + 2 * PI) with (x + PI + PI) by ring.
  rewrite !neg_cos; ring.
Qed.

Lemma meanAnomaly_full_period (self : KeplerOrbit.t) (k : Z) :
  T self = IZR k / IZR Datetime.us_per_second -> T self <> 0 ->
  meanAnomaly self (epoch self + k)%Z = meanAnomaly self (epoch self) + 2 * PI.
Proof.
  intros HT H0; unfold meanAnomaly, Datetime.total_seconds.
  replace (epoch self + k - epoch self)%Z with k by lia.
  rewrite Z.sub_diag, <- HT. field.
  split; [unfold Datetime.us_per_second; lra | exact H0].
Qed.

Lemma iterate_full_turn (self : KeplerOrbit.t) (M0 : R) (n : nat) (x : R) :
  iterate self (M0 + 2 * PI) n (x + 2 * PI) = iterate self M0 n x + 2 * PI.
Proof.
  induction n as [|n IH]; [reflexivity|].
  rewrite !iterate_S, IH. unfold step. rewrite sin_full_turn. ring.
Qed.

Lemma distance_full_turn (self : KeplerOrbit.t) (E : R) :
  _getDistance self (E + 2 * PI) = _getDistance self E.
Proof. unfold _getDistance; now rewrite cos_full_turn. Qed.

Lemma true_anomaly_full_turn (self : KeplerOrbit.t) (E : R) :
  f_of self (E + 2 * PI) = f_of self E.
Proof.
  unfold f_of. replace ((E + 2 * PI) / 2) with (E / 2 + PI) by field.
  unfold tan. rewrite neg_sin, neg_cos.
  set (s := sin (E / 2)); set (c := cos (E / 2)).
  replace (- s / - c) with (s / c); [reflexivity|].
  destruct (Req_dec c 0) as [Hc|Hc].
  - unfold Rdiv; rewrite Hc, Ropp_0, Rinv_0; ring.
  - field; exact Hc.
Qed.

End PeriodFacts.

(** ** The ellipse: position, speed, symmetry *)

Section EllipseFacts.

Import Py KeplerOrbit Kepler Ellipse.
Open Scope R_scope.

Lemma updated_fields (self : KeplerOrbit.t) (E : R) :
  f (updated self E) = Some (f_of self E)
  /\ r (updated self E) = Some (_getDistance self E)
  /\ v (updated self E) = Some (v_of self E)
  /\ O (updated self E) = O self /\ o (updated self E) = o self.
Proof. repeat split. Qed.

Lemma distance_pos (self : KeplerOrbit.t) (E : R) :
  valid self -> 0 < _getDistance self E.
Proof.
  intros Hv; pose proof (valid_abs self Hv) as Ha.
  destruct Hv as (_ & Hap & _).
  destruct (one_minus_ecos_pos self E Ha) as [H1 _].
  unfold _getDistance; nra.
Qed.

(** X1.  For elements in their domains, after a call of [updatePosition]
    that returns, [getCartesianPosition] returns a point whose distance
    from the focus is the stored [r], so the point lies between the circle
    of radius [a(1-e)] and the circle of radius [a(1+e)]. *)
Theorem position_within_apsides
    (fuel : nat) (self self' : KeplerOrbit.t) (time : Datetime.datetime) :
  valid self ->
  updatePosition fuel self time = (self', Ok tt) ->
  exists x y r0,
    getCartesianPosition self' = Ok (x, y)
    /\ r self' = Some r0
    /\ sqrt (x * x + y * y) = r0
    /\ a self * (1 - e self) <= sqrt (x * x + y * y) <= a self * (1 + e self).
Proof.
  intros Hv H.
  apply updatePosition_Ok_inv in H as (E & _ & _ & _ & _ & _ & _ & _ & ->).
  pose proof (distance_pos self E Hv) as Hr.
  set (phi := f_of self E + O self + o self).
  exists (_getDistance self E * cos phi), (_getDistance self E * sin phi),
         (_getDistance self E).
  assert (Hs : sqrt (_getDistance self E * cos phi * (_getDistance self E * cos phi)
                     + _getDistance self E * sin phi * (_getDistance self E * sin phi))
               = _getDistance self E).
  { replace (_getDistance self E * cos phi * (_getDistance self E * cos phi)
             + _getDistance self E * sin phi * (_getDistance self E * sin phi))
      with (Rsqr (_getDistance self E) * (Rsqr (sin phi) + Rsqr (cos phi)))
      by (unfold Rsqr; ring).
    rewrite sin2_cos2, Rmult_1_r. apply sqrt_Rsqr; lra. }
  split; [reflexivity|]. split; [reflexivity|]. split; [exact Hs|].
  rewrite Hs. destruct Hv as ([He0 He1] & Hap & _).
  apply distance_bounds; lra.
Qed.

Lemma position_within_apsides_witness :
  exists fuel self' x y r0,
    updatePosition fuel earth (epoch earth) = (self', Ok tt)
    /\ getCartesianPosition self' = Ok (x, y)
    /\ r self' = Some r0
    /\ sqrt (x * x + y * y) = r0
    /\ a earth * (1 - e earth) <= sqrt (x * x + y * y) <= a earth * (1 + e earth).
Proof.
  destruct (updatePosition_returns earth (epoch earth)) as [N HN].
  - apply valid_abs, earth_valid.
  - cbn; lra.
  - cbn; lra.
  - cbn; lra.
  - destruct (HN N (Nat.le_refl N)) as (E & _ & HE).
    destruct (position_within_apsides N earth (updated earth E) (epoch earth)
                earth_valid HE) as (x & y & r0 & H).
    exists N, (updated earth E), x, y, r0. split; [exact HE | exact H].
Defined.

Lemma cos_double_atan (t : R) : cos (2 * atan t) = (1 - t * t) / (1 + t * t).
Proof.
  pose proof (atan_bound t) as [Hl Hu].
  assert (Hc : 0 < cos (atan t)) by (apply cos_gt_0; lra).
  pose proof (tan_atan t) as Ht. unfold tan in Ht.
  assert (Hs : sin (atan t) = t * cos (atan t)).
  { rewrite <- Ht at 2. field. lra. }
  pose proof (sin2_cos2 (atan t)) as H1. unfold Rsqr in H1.
  rewrite cos_2a, Hs. rewrite Hs in H1.
  set (c := cos (atan t)) in *.
  assert (Hd : 0 < 1 + t * t) by nra.
  apply (Rmult_eq_reg_r (1 + t * t)); [|lra].
  replace ((1 - t * t) / (1 + t * t) * (1 + t * t)) with (1 - t * t)
    by (field; lra).
  nra.
Qed.

Lemma cos_of_half_tan (E : R) :
  cos (E / 2) <> 0 ->
  cos E * (1 + tan (E / 2) * tan (E / 2)) = 1 - tan (E / 2) * tan (E / 2).
Proof.
  intros Hc. replace E with (2 * (E / 2)) at 1 by field.
  rewrite cos_2a. unfold tan.
  pose proof (sin2_cos2 (E / 2)) as H1. unfold Rsqr in H1.
  set (c := cos (E / 2)) in *. set (s := sin (E / 2)) in *.
  set (t := s / c).
  assert (Hs : s = t * c) by (unfold t; field; exact Hc).
  assert (H2 : c * c * (1 + t * t) = 1) by (rewrite Hs in H1; lra).
  transitivity ((1 - t * t) * (c * c * (1 + t * t))); [|rewrite H2; ring].
  rewrite Hs at 1 2. ring.
Qed.

(** X2.  After a returning update of an orbit with elements in their
    domains, the stored true anomaly is a principal value, strictly
    between [-pi] and [pi], and, unless the eccentric anomaly is an odd
    multiple of [pi], the stored [r] and [f] satisfy the equation of the
    ellipse, [r (1 + e cos f) = a (1 - e^2)]. *)
Theorem orbit_equation
    (fuel : nat) (self self' : KeplerOrbit.t) (time : Datetime.datetime) :
  valid self ->
  updatePosition fuel self time = (self', Ok tt) ->
  exists E f0 r0,
    _getEccentricAnomaly fuel self (meanAnomaly self time) = Ok E
    /\ f self' = Some f0 /\ r self' = Some r0
    /\ - PI < f0 < PI
    /\ (cos (E / 2) <> 0 ->
        r0 * (1 + e self * cos f0) = a self * (1 - e self * e self)).
Proof.
  intros Hv H.
  apply updatePosition_Ok_inv in H as (E & HE & _ & _ & Hq & _ & _ & _ & ->).
  exists E, (f_of self E), (_getDistance self E).
  split; [exact HE|]. split; [reflexivity|]. split; [reflexivity|].
  destruct Hv as ([He0 He1] & Hap & _).
  set (k := sqrt ((1 + e self) / (1 - e self))).
  set (u := tan (E / 2)).
  split.
  - unfold f_of; fold k u. pose proof (atan_bound (k * u)). lra.
  - intros Hc. unfold f_of, _getDistance; fold k u.
    rewrite cos_double_atan.
    pose proof (cos_of_half_tan E Hc) as HcE; fold u in HcE.
    assert (Hk : k * k = (1 + e self) / (1 - e self)) by (apply sqrt_sqrt; exact Hq).
    assert (Hu : 0 < 1 + u * u) by nra.
    assert (Hk0 : 0 <= k * k) by nra.
    assert (Hku : 0 < 1 + k * u * (k * u)) by nra.
    assert (HcosE : cos E = (1 - u * u) / (1 + u * u)).
    { apply (Rmult_eq_reg_r (1 + u * u)); [|lra].
      replace ((1 - u * u) / (1 + u * u) * (1 + u * u)) with (1 - u * u)
        by (field; lra).
      exact HcE. }
    rewrite HcosE.
    replace (k * u * (k * u)) with (k * k * (u * u)) by ring.
    assert (Hden : 0 < 1 + k * k * (u * u)) by nra.
    rewrite Hk in *.
    field. repeat split; try lra.
    assert (0 < (1 + e self) * (u * u) + (1 - e self)) by nra.
    nra.
Qed.

Lemma orbit_equation_witness :
  exists self' f0 r0,
    updatePosition 1 at_periapsis (epoch at_periapsis) = (self', Ok tt)
    /\ f self' = Some f0 /\ r self' = Some r0
    /\ - PI < f0 < PI
    /\ r0 * (1 + e at_periapsis * cos f0)
       = a at_periapsis * (1 - e at_periapsis * e at_periapsis).
Proof.
  assert (Hv : valid at_periapsis).
  { unfold valid, at_periapsis, fresh; cbn [e a T my]; lra. }
  assert (Hm : meanAnomaly at_periapsis (epoch at_periapsis) = 0).
  { rewrite meanAnomaly_at_epoch; [reflexivity | cbn; lra]. }
  assert (HE : _getEccentricAnomaly 1 at_periapsis 0 = Ok 0).
  { unfold _getEccentricAnomaly; rewrite loop_eq. unfold step.
    rewrite sin_0, Rmult_0_r, Rplus_0_r.
    rewrite isclose_refl; [reflexivity | apply Rlt_le, accuracy_pos]. }
  destruct (updatePosition_returns at_periapsis (epoch at_periapsis))
    as [N HN]; [apply valid_abs, Hv | cbn; lra | cbn; lra | cbn; lra |].
  assert (Hu : updatePosition 1 at_periapsis (epoch at_periapsis)
               = (updated at_periapsis 0, Ok tt)).
  { apply updatePosition_Ok_intro; rewrite ?Hm; try exact HE;
      unfold _getDistance; cbn [e a T my at_periapsis fresh];
      rewrite ?cos_0; lra. }
  destruct (orbit_equation 1 at_periapsis _ (epoch at_periapsis) Hv Hu)
    as (E & f0 & r0 & HE' & Hf & Hr & Hfr & Heq).
  rewrite Hm, HE in HE'. injection HE' as <-.
  exists (updated at_periapsis 0), f0, r0.
  repeat split; try assumption; try apply Hfr.
  apply Heq. replace (0 / 2) with 0 by field. rewrite cos_0; lra.
Defined.

(** X3.  After a returning update of an orbit with elements in their
    domains, the stored speed is positive, satisfies the vis-viva relation
    [v^2 = my (2 / r - 1 / a)], and lies between the speed at apoapsis and
    the speed at periapsis. *)
Theorem speed_between_apsides
    (fuel : nat) (self self' : KeplerOrbit.t) (time : Datetime.datetime) :
  valid self ->
  updatePosition fuel self time = (self', Ok tt) ->
  exists r0 v0,
    r self' = Some r0 /\ v self' = Some v0
    /\ 0 < v0
    /\ v0 * v0 = my self * (2 / r0 - 1 / a self)
    /\ apoapsis_speed self <= v0 <= periapsis_speed self.
Proof.
  intros Hv H; pose proof (valid_abs self Hv) as Habs.
  apply updatePosition_Ok_inv in H as (E & _ & _ & _ & _ & _ & Ha & Hs & ->).
  destruct Hv as ([He0 He1] & Hap & _ & Hmy).
  exists (_getDistance self E), (v_of self E).
  split; [reflexivity|]. split; [reflexivity|].
  destruct (one_minus_ecos_pos self E Habs) as [Hm Hp].
  pose proof (COS_bound E) as [Hc1 Hc2].
  set (c := cos E) in *.
  assert (Hrad : my self * (2 / _getDistance self E - 1 / a self)
                 = my self / a self * ((1 + e self * c) / (1 - e self * c))).
  { rewrite vis_viva_radicand by assumption. fold c. field. lra. }
  assert (Hma : 0 < my self / a self) by (apply Rdiv_lt_0_compat; lra).
  assert (Hlo : (1 - e self) / (1 + e self) <= (1 + e self * c) / (1 - e self * c)).
  { apply (Rmult_le_reg_r ((1 + e self) * (1 - e self * c))); [nra|].
    replace ((1 - e self) / (1 + e self) * ((1 + e self) * (1 - e self * c)))
      with ((1 - e self) * (1 - e self * c)) by (field; lra).
    replace ((1 + e self * c) / (1 - e self * c) * ((1 + e self) * (1 - e self * c)))
      with ((1 + e self * c) * (1 + e self)) by (field; lra).
    nra. }
  assert (Hhi : (1 + e self * c) / (1 - e self * c) <= (1 + e self) / (1 - e self)).
  { apply (Rmult_le_reg_r ((1 - e self) * (1 - e self * c))); [nra|].
    replace ((1 + e self) / (1 - e self) * ((1 - e self) * (1 - e self * c)))
      with ((1 + e self) * (1 - e self * c)) by (field; lra).
    replace ((1 + e self * c) / (1 - e self * c) * ((1 - e self) * (1 - e self * c)))
      with ((1 + e self * c) * (1 - e self)) by (field; lra).
    nra. }
  assert (Hq : 0 < (1 + e self * c) / (1 - e self * c))
    by (apply Rdiv_lt_0_compat; lra).
  unfold v_of. rewrite Hrad.
  split; [apply sqrt_lt_R0; nra|].
  split; [apply sqrt_sqrt; nra|].
  unfold apoapsis_speed, periapsis_speed.
  split; apply sqrt_le_1_alt; apply Rmult_le_compat_l; lra.
Qed.

Lemma speed_between_apsides_witness :
  exists fuel self' r0 v0,
    updatePosition fuel earth (epoch earth) = (self', Ok tt)
    /\ r self' = Some r0 /\ v self' = Some v0
    /\ 0 < v0
    /\ v0 * v0 = my earth * (2 / r0 - 1 / a earth)
    /\ apoapsis_speed earth <= v0 <= periapsis_speed earth.
Proof.
  destruct (updatePosition_returns earth (epoch earth)) as [N HN];
    [apply valid_abs, earth_valid | cbn; lra | cbn; lra | cbn; lra |].
  destruct (HN N (Nat.le_refl N)) as (E & _ & HE).
  destruct (speed_between_apsides N earth (updated earth E) (epoch earth)
              earth_valid HE) as (r0 & v0 & H).
  exists N, (updated earth E), r0, v0. split; [exact HE | exact H].
Defined.

Lemma solver_at_multiple_of_pi (self : KeplerOrbit.t) (fuel : nat) (M0 : R) :
  sin M0 = 0 -> _getEccentricAnomaly (S fuel) self M0 = Ok M0.
Proof.
  intros Hs; unfold _getEccentricAnomaly. rewrite loop_eq. unfold step.
  rewrite Hs, Rmult_0_r, Rplus_0_r.
  rewrite isclose_refl; [reflexivity | apply Rlt_le, accuracy_pos].
Qed.

(** X4.  The bounds on distance and speed are attained.  When the mean
    anomaly passed to the solver is [0], the first pass of the loop
    already returns and the object is at periapsis: [f = 0],
    [r = a(1-e)] and [v] is the periapsis speed.  When it is [pi], the
    object is at apoapsis: [r = a(1+e)] and [v] is the apoapsis speed. *)
Theorem apsides_attained
    (fuel : nat) (self : KeplerOrbit.t) (time : Datetime.datetime) :
  valid self -> (1 <= fuel)%nat ->
  (meanAnomaly self time = 0 ->
   exists self', updatePosition fuel self time = (self', Ok tt)
     /\ f self' = Some 0
     /\ r self' = Some (a self * (1 - e self))
     /\ v self' = Some (periapsis_speed self))
  /\ (meanAnomaly self time = PI ->
      exists self', updatePosition fuel self time = (self', Ok tt)
        /\ r self' = Some (a self * (1 + e self))
        /\ v self' = Some (apoapsis_speed self)).
Proof.
  intros Hv Hfuel; pose proof (valid_abs self Hv) as Habs.
  destruct fuel as [|fuel]; [lia|].
  destruct Hv as ([He0 He1] & Hap & HT & Hmy).
  assert (Hret : forall E,
            _getEccentricAnomaly (S fuel) self (meanAnomaly self time) = Ok E ->
            updatePosition (S fuel) self time = (updated self E, Ok tt)).
  { intros E HE. destruct (one_minus_ecos_pos self E Habs) as [H1 H2].
    apply updatePosition_Ok_intro; try assumption; try lra.
    - apply Rlt_le, Rdiv_lt_0_compat; lra.
    - unfold _getDistance; nra.
    - rewrite vis_viva_radicand by (try assumption; lra).
      apply Rmult_le_pos; [lra|].
      apply Rmult_le_pos; [apply Rlt_le, Rinv_0_lt_compat; lra|].
      apply Rlt_le, Rdiv_lt_0_compat; lra. }
  split; intros Hm.
  - exists (updated self 0). split.
    + apply Hret. rewrite Hm. apply solver_at_multiple_of_pi, sin_0.
    + cbn [f r v updated set_f set_r set_v].
      unfold f_of, _getDistance, v_of, periapsis_speed, _getDistance.
      replace (0 / 2) with 0 by field.
      rewrite tan_0, Rmult_0_r, atan_0, cos_0.
      repeat split; do 2 f_equal; field; lra.
  - exists (updated self PI). split.
    + apply Hret. rewrite Hm. apply solver_at_multiple_of_pi, sin_PI.
    + cbn [f r v updated set_f set_r set_v].
      unfold _getDistance, v_of, apoapsis_speed, _getDistance.
      rewrite cos_PI.
      repeat split; do 2 f_equal; field; lra.
Qed.

Lemma apsides_attained_witness :
  (exists self',
     updatePosition 1 at_periapsis (epoch at_periapsis) = (self', Ok tt)
     /\ f self' = Some 0
     /\ r self' = Some (a at_periapsis * (1 - e at_periapsis))
     /\ v self' = Some (periapsis_speed at_periapsis))
  /\ (exists self',
        updatePosition 1 at_apoapsis (epoch at_apoapsis) = (self', Ok tt)
        /\ r self' = Some (a at_apoapsis * (1 + e at_apoapsis))
        /\ v self' = Some (apoapsis_speed at_apoapsis)).
Proof.
  assert (Hv1 : valid at_periapsis).
  { unfold valid, at_periapsis, fresh; cbn [e a T my]; lra. }
  assert (Hv2 : valid at_apoapsis).
  { unfold valid, at_apoapsis, fresh; cbn [e a T my]; lra. }
  split.
  - apply (proj1 (apsides_attained 1 at_periapsis (epoch at_periapsis)
                    Hv1 (le_n 1))).
    rewrite meanAnomaly_at_epoch; [reflexivity | cbn; lra].
  - apply (proj2 (apsides_attained 1 at_apoapsis (epoch at_apoapsis)
                    Hv2 (le_n 1))).
    rewrite meanAnomaly_at_epoch; [reflexivity | cbn; lra].
Defined.

Lemma isclose_opp (x y tol : R) : isclose (- x) (- y) tol = isclose x y tol.
Proof.
  unfold isclose.
  replace (- x - - y) with (- (x - y)) by ring.
  now rewrite !Rabs_Ropp.
Qed.

Lemma loop_mirror (self : KeplerOrbit.t) (M0 : R) (fuel : nat) :
  forall prevE,
    _getEccentricAnomaly_loop fuel self (- M0) (- prevE) 0
    = negated (_getEccentricAnomaly_loop fuel self M0 prevE 0).
Proof.
  induction fuel as [|fuel IH]; intros prevE; [reflexivity|].
  rewrite !loop_eq.
  assert (Hs : step self (- M0) (- prevE) = - step self M0 prevE).
  { unfold step; rewrite sin_neg; ring. }
  rewrite Hs, isclose_opp.
  destruct (isclose (step self M0 prevE) prevE _accuracy); [reflexivity|].
  apply IH.
Qed.

Lemma solver_mirror (self : KeplerOrbit.t) (M0 : R) (fuel : nat) :
  _getEccentricAnomaly fuel self (- M0)
  = negated (_getEccentricAnomaly fuel self M0).
Proof. unfold _getEccentricAnomaly; apply loop_mirror. Qed.

(** X5.  The orbit is symmetric about its line of apsides: two times whose
    mean anomalies are opposite give, with the same fuel, the same
    distance and speed and opposite true anomalies, and the second call
    returns whenever the first does. *)
Theorem orbit_mirror_symmetry
    (fuel : nat) (self s1 : KeplerOrbit.t) (t1 t2 : Datetime.datetime) :
  meanAnomaly self t2 = - meanAnomaly self t1 ->
  updatePosition fuel self t1 = (s1, Ok tt) ->
  exists s2 f1 r1 v1,
    updatePosition fuel self t2 = (s2, Ok tt)
    /\ f s1 = Some f1 /\ r s1 = Some r1 /\ v s1 = Some v1
    /\ f s2 = Some (- f1) /\ r s2 = Some r1 /\ v s2 = Some v1.
Proof.
  intros Hm H.
  apply updatePosition_Ok_inv in H
    as (E & HE & HT & He & Hq & Hr & Ha & Hs & ->).
  assert (Hd : _getDistance self (- E) = _getDistance self E).
  { unfold _getDistance; now rewrite cos_neg. }
  assert (Hf : f_of self (- E) = - f_of self E).
  { unfold f_of. replace (- E / 2) with (- (E / 2)) by field.
    rewrite tan_neg, Ropp_mult_distr_r_reverse, atan_opp. ring. }
  assert (Hv : v_of self (- E) = v_of self E).
  { unfold v_of; now rewrite Hd. }
  exists (updated self (- E)), (f_of self E), (_getDistance self E), (v_of self E).
  split.
  - apply updatePosition_Ok_intro; rewrite ?Hd; try assumption.
    rewrite Hm, solver_mirror, HE. reflexivity.
  - cbn [f r v updated set_f set_r set_v]. rewrite Hf, Hd, Hv.
    repeat split.
Qed.

Lemma orbit_mirror_symmetry_witness :
  let t1 := (epoch at_periapsis + 250000)%Z in
  let t2 := (epoch at_periapsis - 250000)%Z in
  exists fuel s1 s2 f1 r1 v1,
    updatePosition fuel at_periapsis t1 = (s1, Ok tt)
    /\ updatePosition fuel at_periapsis t2 = (s2, Ok tt)
    /\ f s1 = Some f1 /\ r s1 = Some r1 /\ v s1 = Some v1
    /\ f s2 = Some (- f1) /\ r s2 = Some r1 /\ v s2 = Some v1.
Proof.
  intros t1 t2.
  assert (Hv : valid at_periapsis).
  { unfold valid, at_periapsis, fresh; cbn [e a T my]; lra. }
  assert (Hm : meanAnomaly at_periapsis t2 = - meanAnomaly at_periapsis t1).
  { unfold meanAnomaly, t1, t2, Datetime.total_seconds.
    replace (epoch at_periapsis + 250000 - epoch at_periapsis)%Z with 250000%Z
      by lia.
    replace (epoch at_periapsis - 250000 - epoch at_periapsis)%Z
      with (-250000)%Z by lia.
    cbn [T M at_periapsis fresh]. unfold Datetime.us_per_second. field. }
  destruct (updatePosition_returns at_periapsis t1) as [N HN];
    [apply valid_abs, Hv | cbn; lra | cbn; lra | cbn; lra |].
  destruct (HN N (Nat.le_refl N)) as (E & _ & HE).
  destruct (orbit_mirror_symmetry N at_periapsis _ t1 t2 Hm HE)
    as (s2 & f1 & r1 & v1 & H2 & H).
  exists N, (updated at_periapsis E), s2, f1, r1, v1.
  split; [exact HE|]. split; [exact H2 | exact H].
Defined.



Lemma derived_state_one_turn (self : KeplerOrbit.t) (E : R) :
  updated self (E + 2 * PI) = updated self E.
Proof.
  unfold updated, v_of.
  now rewrite true_anomaly_full_turn, distance_full_turn.
Qed.

(** X7.  The three derived members depend on the eccentric anomaly only
    up to whole turns: adding any integer multiple of [2 pi] to it gives
    the same [f], [r] and [v]. *)
Theorem derived_state_full_turns (self : KeplerOrbit.t) (E : R) (k : Z) :
  updated self (E + 2 * IZR k * PI) = updated self E.
Proof.
  assert (Hn : forall n : nat, forall E0,
            updated self (E0 + 2 * INR n * PI) = updated self E0).
  { induction n as [|n IH]; intros E0.
    - cbn [INR]. f_equal. ring.
    - rewrite S_INR.
      replace (E0 + 2 * (INR n + 1) * PI) with (E0 + 2 * INR n * PI + 2 * PI)
        by ring.
      rewrite derived_state_one_turn. apply IH. }
  destruct (Z_le_gt_dec 0 k) as [Hk|Hk].
  - rewrite <- (Z2Nat.id k Hk), <- INR_IZR_INZ. apply Hn.
  - rewrite <- (Hn (Z.to_nat (- k)) (E + 2 * IZR k * PI)).
    f_equal. rewrite INR_IZR_INZ, Z2Nat.id by lia. rewrite opp_IZR. ring.
Qed.

End EllipseFacts.

(** ** The clock under any sequence of keys and frames *)

Section GameLoopFacts.

Import Py Datetime Calendar SolarSystem Clock GameLoop.
Open Scope Z_scope.
Open Scope py_scope.

Lemma update_Ok (s : SolarSystem.t) :
  0 < fps s -> 0 <= speedIndex s < 25 ->
  exists s' rd, update s = Ok s'
    /\ getitem SPEED (speedIndex s) = Ok rd
    /\ fps s' = fps s /\ speedIndex s' = speedIndex s
    /\ paused s' = paused s /\ pausIndex s' = pausIndex s
    /\ time s' = time s + timeStep s
    /\ ((targetTimeReached s = true \/ reached s (time s + timeStep s) = true) ->
        s' = retargeted
               (SolarSystem.mk (fps s) (speedIndex s) (targetTime s) (timeStep s)
                  true (paused s) (pausIndex s) (time s + timeStep s)) rd)
    /\ (targetTimeReached s = false ->
        reached s (time s + timeStep s) = false ->
        s' = advance s 1).
Proof.
  intros Hf Hi.
  destruct (getitem_in_range (speedIndex s) Hi) as [rd Hg].
  unfold update. fold (reached s (time s + timeStep s)).
  destruct (reached s (time s + timeStep s)) eqn:Hr.
  - cbn [targetTimeReached].
    rewrite (updateTimeStep_eq _ rd) by assumption.
    eexists; exists rd.
    split; [reflexivity|]. split; [exact Hg|].
    do 5 (split; [reflexivity|]).
    split; [intros _; reflexivity | intros _ H; discriminate].
  - destruct (targetTimeReached s) eqn:Hfl; cbn [targetTimeReached].
    + rewrite (updateTimeStep_eq _ rd) by assumption.
      eexists; exists rd.
      split; [reflexivity|]. split; [exact Hg|].
      do 5 (split; [reflexivity|]).
      split; [intros _; reflexivity | intros H; discriminate].
    + eexists; exists rd.
      split; [reflexivity|]. split; [exact Hg|].
      do 5 (split; [reflexivity|]).
      split; [intros [H|H]; discriminate|].
      intros _ _. unfold advance. now rewrite Z.mul_1_l, Hfl.
Qed.

Lemma act_keeps_well_formed (s : SolarSystem.t) (a : action) :
  well_formed s -> exists s', act s a = Ok s' /\ well_formed s'.
Proof.
  intros Hw; pose proof Hw as (Hf & Hi & Hp).
  destruct a as [|ev].
  - destruct (update_Ok s Hf Hi) as (s' & rd & Hu & _ & H1 & H2 & H3 & H4 & _).
    exists s'; split; [exact Hu|].
    unfold well_formed. rewrite H1, H2, H3, H4. auto.
  - destruct ev as [| | |d]; cbn [act eventHandler].
    + eexists; split; [reflexivity|].
      unfold stepSpeed, well_formed.
      destruct (paused s) eqn:Hpa; cbn [negb]; [exact Hw|].
      cbn [fps speedIndex paused pausIndex].
      repeat split; try lia; try discriminate;
        destruct ((speedIndex s + DOWN >=? 0)
                  && (speedIndex s + DOWN <? Z.of_nat (length SPEED))) eqn:Hc;
        try lia;
        apply andb_true_iff in Hc as [Hc1 Hc2];
        apply Z.geb_le in Hc1; apply Z.ltb_lt in Hc2; cbn in Hc2; lia.
    + eexists; split; [reflexivity|].
      unfold stepSpeed, well_formed.
      destruct (paused s) eqn:Hpa; cbn [negb]; [exact Hw|].
      cbn [fps speedIndex paused pausIndex].
      repeat split; try lia; try discriminate;
        destruct ((speedIndex s + UP >=? 0)
                  && (speedIndex s + UP <? Z.of_nat (length SPEED))) eqn:Hc;
        try lia;
        apply andb_true_iff in Hc as [Hc1 Hc2];
        apply Z.geb_le in Hc1; apply Z.ltb_lt in Hc2; cbn in Hc2; lia.
    + destruct (paused s) eqn:Hpa; cbn [negb].
      * destruct (Hp eq_refl) as (_ & i & Hpi & Hir). rewrite Hpi.
        eexists; split; [reflexivity|].
        unfold well_formed; cbn [fps speedIndex paused pausIndex].
        repeat split; try lia; discriminate.
      * eexists; split; [reflexivity|].
        unfold well_formed; cbn [fps speedIndex paused pausIndex].
        repeat split; try (unfold FREEZE_INDEX; lia).
        exists (speedIndex s); split; [reflexivity | lia].
    + destruct d as [d|]; (eexists; split; [reflexivity|]);
        unfold well_formed; cbn [fps speedIndex paused pausIndex]; auto.
Qed.

Lemma run_keeps_well_formed (actions : list action) : forall s,
  well_formed s -> exists s', run actions s = Ok s' /\ well_formed s'.
Proof.
  induction actions as [|a rest IH]; intros s Hw; [now exists s|].
  destruct (act_keeps_well_formed s a Hw) as (s1 & H1 & Hw1).
  destruct (IH s1 Hw1) as (s' & H' & Hw').
  exists s'; split; [|exact Hw']. cbn [run]. now rewrite H1.
Qed.


(** X9.  [stepSpeed] moves the speed index by one step and stops at both
    ends of the table, requests a new target on the next [update], and
    touches nothing else; on a paused clock it does nothing at all. *)
Theorem stepSpeed_saturates (s : SolarSystem.t) (direction : Z) :
  0 <= speedIndex s < 25 ->
  direction = UP \/ direction = DOWN ->
  let s' := stepSpeed s direction in
  speedIndex s'
  = (if paused s then speedIndex s
     else Z.max 0 (Z.min 24 (speedIndex s + direction)))
  /\ (paused s = false -> targetTimeReached s' = true)
  /\ (paused s = true -> s' = s)
  /\ time s' = time s /\ targetTime s' = targetTime s
  /\ timeStep s' = timeStep s /\ paused s' = paused s
  /\ pausIndex s' = pausIndex s.
Proof.
  intros Hi Hd s'; unfold s', stepSpeed.
  destruct (paused s) eqn:Hp; cbn [negb].
  - rewrite Hp. repeat split; try reflexivity; discriminate.
  - cbn [speedIndex targetTimeReached time targetTime timeStep paused pausIndex].
    split; [|repeat split; try reflexivity; try assumption; discriminate].
    change (Z.of_nat (length SPEED)) with 25.
    destruct ((speedIndex s + direction >=? 0)
              && (speedIndex s + direction <? 25)) eqn:Hc.
    + apply andb_true_iff in Hc as [Hc1 Hc2].
      apply Z.geb_le in Hc1; apply Z.ltb_lt in Hc2. lia.
    + apply andb_false_iff in Hc.
      unfold UP, DOWN in Hd.
      destruct Hc as [Hc|Hc]; [rewrite Z.geb_leb in Hc; apply Z.leb_gt in Hc
                              | apply Z.ltb_ge in Hc]; lia.
Qed.

Lemma stepSpeed_saturates_witness :
  speedIndex (stepSpeed (unset 30 24 EPOCH) UP) = 24
  /\ speedIndex (stepSpeed (unset 30 0 EPOCH) DOWN) = 0
  /\ targetTimeReached (stepSpeed (unset 30 24 EPOCH) UP) = true.
Proof.
  pose proof (stepSpeed_saturates (unset 30 24 EPOCH) UP) as H1.
  pose proof (stepSpeed_saturates (unset 30 0 EPOCH) DOWN) as H2.
  cbv zeta in H1, H2.
  destruct H1 as (H1 & H1' & _); [cbn; lia | now left |].
  destruct H2 as (H2 & _); [cbn; lia | now right |].
  split; [exact H1|]. split; [exact H2|]. apply H1'. reflexivity.
Defined.

Lemma speed_keys_while_paused (keys : list event) : forall s,
  paused s = true -> Forall speed_key keys ->
  run (map Key keys) s = Ok s.
Proof.
  induction keys as [|k keys IH]; intros s Hp Hk; [reflexivity|].
  inversion Hk as [|? ? Hk1 Hk2]; subst.
  cbn [map run act].
  assert (He : eventHandler s k = Ok s).
  { destruct Hk1 as [-> | ->]; cbn [eventHandler]; unfold stepSpeed;
      now rewrite Hp. }
  rewrite He. cbn [bind]. now apply IH.
Qed.

Lemma run_app (l1 l2 : list action) : forall s,
  run (l1 ++ l2) s = bind (run l1 s) (run l2).
Proof.
  induction l1 as [|x l1 IH]; intros s; [reflexivity|].
  cbn [app run]. destruct (act s x) as [s'| |]; cbn [bind]; [apply IH|easy|easy].
Qed.

(** X10.  Pausing, pressing the speed keys any number of times, and
    resuming brings back the speed the clock had before the pause, with
    the time, the target and the time step untouched; the next [update]
    is asked to derive a new target. *)
Theorem pause_then_resume (s : SolarSystem.t) (keys : list event) :
  paused s = false -> Forall speed_key keys ->
  exists s',
    run (Key K_SPACE :: map Key keys ++ [Key K_SPACE]) s = Ok s'
    /\ speedIndex s' = speedIndex s /\ paused s' = false
    /\ time s' = time s /\ targetTime s' = targetTime s
    /\ timeStep s' = timeStep s /\ fps s' = fps s
    /\ targetTimeReached s' = true.
Proof.
  intros Hp Hk.
  cbn [run act eventHandler]. rewrite Hp. cbn [negb bind].
  rewrite run_app, speed_keys_while_paused by (try assumption; reflexivity).
  cbn [bind run act eventHandler paused pausIndex negb].
  eexists; split; [reflexivity|]. repeat split.
Qed.

Lemma pause_then_resume_witness :
  exists s',
    run [Key K_SPACE; Key K_LEFT; Key K_RIGHT; Key K_RIGHT; Key K_SPACE] running
    = Ok s'
    /\ speedIndex s' = 16 /\ paused s' = false.
Proof.
  assert (Hp : paused running = false) by reflexivity.
  assert (Hk : Forall speed_key [K_LEFT; K_RIGHT; K_RIGHT]).
  { repeat apply Forall_cons; try apply Forall_nil; unfold speed_key; auto. }
  destruct (pause_then_resume running [K_LEFT; K_RIGHT; K_RIGHT] Hp Hk)
    as (s' & H & H1 & H2 & _).
  exists s'. split; [exact H|]. split; [exact H1 | exact H2].
Defined.

Lemma frozen_ticks (n : nat) : forall s,
  speedIndex s = FREEZE_INDEX -> timeStep s = 0 ->
  targetTimeReached s = false ->
  ticks n s = Ok s.
Proof.
  induction n as [|n IH]; intros s Hi Hs Hf; [reflexivity|].
  cbn [ticks].
  assert (Hu : update s = Ok s).
  { unfold update. rewrite Hi, Hs, Hf, Z.add_0_r.
    cbn. rewrite <- Hi, <- Hs, <- Hf. now destruct s. }
  rewrite Hu. cbn [bind]. now apply IH.
Qed.

(** X11.  The pause does not take effect at once: after the pause key the
    first [update] still advances the time by the old time step; from
    then on the time step is zero and the time stands still, for any
    number of further frames, with the speed to return to saved. *)
Theorem pause_stops_after_one_tick (s : SolarSystem.t) (n : nat) :
  0 < fps s -> paused s = false ->
  exists s1 sN,
    eventHandler s K_SPACE = Ok s1
    /\ ticks (S n) s1 = Ok sN
    /\ time sN = time s + timeStep s
    /\ timeStep sN = 0 /\ targetTime sN = time sN
    /\ paused sN = true /\ speedIndex sN = FREEZE_INDEX
    /\ pausIndex sN = Some (speedIndex s).
Proof.
  intros Hf Hp.
  cbn [eventHandler]. rewrite Hp. cbn [negb].
  eexists; eexists. split; [reflexivity|].
  cbn [ticks].
  unfold update at 1.
  cbn [fps speedIndex targetTime timeStep targetTimeReached paused pausIndex time].
  replace (if _ : bool then true else true) with true by (now destruct (_ || _)).
  rewrite (updateTimeStep_eq _ (rd_seconds 0)) by (try reflexivity; exact Hf).
  cbn [bind]. unfold retargeted.
  cbn [fps speedIndex targetTime timeStep targetTimeReached paused pausIndex time].
  rewrite add_relativedelta_time_only by reflexivity.
  cbn [days hours minutes seconds rd_seconds].
  replace (time s + timeStep s
           + (0 * 86400 + 0 * 3600 + 0 * 60 + 0) * us_per_second
           - (time s + timeStep s)) with 0 by lia.
  replace (div_half_even 0 (fps s)) with 0.
  2:{ unfold div_half_even. rewrite Z.div_0_l, Zmod_0_l by lia.
      replace (2 * 0 <? fps s) with true by (symmetry; apply Z.ltb_lt; lia).
      reflexivity. }
  rewrite frozen_ticks by reflexivity.
  split; [reflexivity|].
  cbn [time timeStep targetTime paused speedIndex pausIndex].
  repeat split; lia.
Qed.

Lemma pause_stops_after_one_tick_witness :
  exists s1 sN,
    eventHandler running K_SPACE = Ok s1
    /\ ticks 100 s1 = Ok sN
    /\ time sN = time running + timeStep running
    /\ timeStep sN = 0 /\ paused sN = true.
Proof.
  assert (Hf : 0 < fps running) by (cbn; lia).
  assert (Hp : paused running = false) by reflexivity.
  destruct (pause_stops_after_one_tick running 99 Hf Hp)
    as (s1 & sN & H1 & H2 & H3 & H4 & _ & H5 & _).
  exists s1, sN. repeat split; assumption.
Defined.





End GameLoopFacts.

(** ** Zoom, keys and planet selection *)

Section ControlFacts.

Import Py Controls.
Open Scope R_scope.
Open Scope py_scope.



Open Scope Z_scope.

(** X15.  The quit test of [eventHandler] reads
    [key == K_ESCAPE or (K_F4 and (mod & KMOD_ALT))]: the constant [K_F4]
    is not compared with the key, so with Alt held every key quits, and
    without Alt only Escape does (F4 alone does not). *)
Theorem alt_with_any_key_quits (pg : pygame) (key mods : Z) :
  K_F4 pg <> 0 ->
  (Z.land mods (KMOD_ALT pg) <> 0 -> keydown pg key mods = Quit)
  /\ (Z.land mods (KMOD_ALT pg) = 0 ->
      (keydown pg key mods = Quit <-> key = K_ESCAPE pg)).
Proof.
  intros HF4. unfold keydown.
  apply Z.eqb_neq in HF4. rewrite HF4. cbn [negb andb].
  split.
  - intros Halt. apply Z.eqb_neq in Halt. rewrite Halt.
    cbn [negb]. rewrite orb_true_r. reflexivity.
  - intros Hno. rewrite Hno. cbn [Z.eqb negb]. rewrite orb_false_r.
    destruct (key =? K_ESCAPE pg) eqn:He.
    + apply Z.eqb_eq in He. split; auto.
    + apply Z.eqb_neq in He. split; [|contradiction].
      repeat match goal with
      | |- context [if ?c then _ else _] => destruct c
      end; discriminate.
Qed.

Lemma alt_with_any_key_quits_witness :
  keydown pygame2 (K_LEFT pygame2) 256 = Quit
  /\ keydown pygame2 (K_F4 pygame2) 0 = Ignore.
Proof.
  assert (HF4 : K_F4 pygame2 <> 0) by (cbn; lia).
  destruct (alt_with_any_key_quits pygame2 (K_LEFT pygame2) 256 HF4) as [H _].
  split; [apply H; vm_compute; discriminate | reflexivity].
Defined.

Lemma PlanetGroup_add_planets (sprites : list sprite) : forall orbits,
  PlanetGroup_add orbits sprites = orbits ++ planets sprites.
Proof.
  induction sprites as [|[name orbit|] rest IH]; intros orbits; cbn.
  - now rewrite app_nil_r.
  - now rewrite IH, <- app_assoc.
  - apply IH.
Qed.

(** X16.  A key that [eventHandler] takes for a planet selection gives an
    index between 0 and 8, and as soon as nine planets were added to the
    [PlanetGroup], whatever other sprites came with them, [orbits[index]]
    is the planet added at that position and raises no [IndexError]. *)
Theorem digit_keys_select_a_planet
    (pg : pygame) (key mods index : Z) (sprites : list sprite) :
  K_9 pg = K_1 pg + 8 ->
  (9 <= length (planets sprites))%nat ->
  keydown pg key mods = SelectPlanet index ->
  PlanetGroup_add [] sprites = planets sprites
  /\ 0 <= index <= 8
  /\ exists p,
       SolarSystem.getitem (PlanetGroup_add [] sprites) index = Ok p
       /\ nth_error (planets sprites) (Z.to_nat index) = Some p.
Proof.
  intros H9 Hlen Hk.
  assert (Hadd : PlanetGroup_add [] sprites = planets sprites)
    by apply PlanetGroup_add_planets.
  assert (Hi : 0 <= index <= 8).
  { unfold keydown in Hk.
    repeat match type of Hk with
    | (if ?c then _ else _) = _ => destruct c eqn:?; try discriminate
    end.
    injection Hk as <-.
    match goal with
    | H : (_ && _) = true |- _ => apply andb_true_iff in H as [H1 H2]
    end.
    apply Z.leb_le in H1. apply Z.ltb_lt in H2. lia. }
  split; [exact Hadd|]. split; [exact Hi|].
  rewrite Hadd. unfold SolarSystem.getitem; cbv zeta.
  assert (H0 : (index <? 0) = false) by (apply Z.ltb_ge; lia).
  assert (H1 : (Z.of_nat (length (planets sprites)) <=? index) = false)
    by (apply Z.leb_gt; lia).
  rewrite !H0, H1; cbn [orb].
  destruct (nth_error (planets sprites) (Z.to_nat index)) as [p|] eqn:Hn.
  - exists p; split; reflexivity.
  - apply nth_error_None in Hn. lia.
Qed.

Lemma digit_keys_select_a_planet_witness :
  SolarSystem.getitem
    (PlanetGroup_add [] (nine_planets_and_sun KeplerOrbit.earth)) 8
  = Ok ("Pluto"%string, KeplerOrbit.earth).
Proof.
  set (sprites := nine_planets_and_sun KeplerOrbit.earth).
  assert (H9 : K_9 pygame2 = K_1 pygame2 + 8) by reflexivity.
  assert (Hlen : (9 <= length (planets sprites))%nat) by (cbn; lia).
  assert (Hk : keydown pygame2 57 0 = SelectPlanet 8) by reflexivity.
  destruct (digit_keys_select_a_planet pygame2 57 0 8 sprites H9 Hlen Hk)
    as (_ & _ & p & Hp & Hn).
  rewrite Hp. cbn in Hn. now injection Hn as <-.
Defined.

End ControlFacts.

(** ** Body images and the traced ellipse *)

Section SpriteFacts.

Import Py Datetime KeplerOrbit ZoomSprite Kepler Sprites.
Open Scope R_scope.

Lemma round_half_even_floor (y : R) :
  (Zfloor y <= round_half_even y <= Zfloor y + 1)%Z.
Proof.
  unfold round_half_even; cbv zeta.
  destruct (Rltb (y - IZR (Zfloor y)) (1 / 2)); [lia|].
  destruct (Rltb (1 / 2) (y - IZR (Zfloor y))); [lia|].
  destruct (Z.even (Zfloor y)); lia.
Qed.

Lemma round_half_even_near (y : R) :
  y - 1 / 2 <= IZR (round_half_even y) <= y + 1 / 2.
Proof.
  pose proof (Zfloor_bound y) as [Hl Hu].
  unfold round_half_even; cbv zeta.
  destruct (Rltb (y - IZR (Zfloor y)) (1 / 2)) eqn:H1.
  - apply Rltb_true in H1. lra.
  - apply Rltb_false in H1.
    destruct (Rltb (1 / 2) (y - IZR (Zfloor y))) eqn:H2.
    + rewrite plus_IZR. lra.
    + apply Rltb_false in H2.
      destruct (Z.even (Zfloor y)); [|rewrite plus_IZR]; lra.
Qed.

Lemma round_half_even_mono (y y' : R) :
  y <= y' -> (round_half_even y <= round_half_even y')%Z.
Proof.
  intros Hle.
  pose proof (Zfloor_le _ _ Hle) as Hfl.
  destruct (Z.eq_dec (Zfloor y) (Zfloor y')) as [Heq|Hne].
  - unfold round_half_even; cbv zeta. rewrite <- Heq.
    destruct (Rltb (y - IZR (Zfloor y)) (1 / 2)) eqn:H1.
    + destruct (Rltb (y' - IZR (Zfloor y)) (1 / 2));
        [lia | destruct (Rltb (1 / 2) (y' - IZR (Zfloor y)));
               [lia | destruct (Z.even (Zfloor y)); lia]].
    + apply Rltb_false in H1.
      replace (Rltb (y' - IZR (Zfloor y)) (1 / 2)) with false
        by (symmetry; apply Rltb_false; lra).
      destruct (Rltb (1 / 2) (y - IZR (Zfloor y))) eqn:H2.
      * apply Rltb_true in H2.
        replace (Rltb (1 / 2) (y' - IZR (Zfloor y))) with true
          by (symmetry; apply Rltb_true; lra).
        lia.
      * destruct (Rltb (1 / 2) (y' - IZR (Zfloor y)));
          destruct (Z.even (Zfloor y)); lia.
  - pose proof (round_half_even_floor y). pose proof (round_half_even_floor y').
    lia.
Qed.

(** X17.  The radius of the drawn disc is never below [minRadius], is
    at least the scaled radius less half a pixel, and does not shrink when
    the zoom grows (for a scaled radius that is not negative). *)
Theorem disc_radius_bounds
    (referenceRadius : R) (minRadius : Z) (radius zoom zoom' : R) :
  (minRadius <= disc_radius referenceRadius minRadius radius zoom)%Z
  /\ radius * referenceRadius * zoom - 1 / 2
     <= IZR (disc_radius referenceRadius minRadius radius zoom)
  /\ (0 <= radius * referenceRadius -> zoom <= zoom' ->
      (disc_radius referenceRadius minRadius radius zoom
       <= disc_radius referenceRadius minRadius radius zoom')%Z).
Proof.
  unfold disc_radius. split; [lia|]. split.
  - pose proof (round_half_even_near (radius * referenceRadius * zoom)) as [H _].
    apply Rle_trans with (1 := H). apply IZR_le. lia.
  - intros Hr Hz.
    assert (H : radius * referenceRadius * zoom
                <= radius * referenceRadius * zoom') by nra.
    apply round_half_even_mono in H. lia.
Qed.

Lemma disc_radius_bounds_witness :
  (disc_radius JUPITER_RADIUS_AT_ZOOM_ONE 1 (843 / 1000) 1
   <= disc_radius JUPITER_RADIUS_AT_ZOOM_ONE 1 (843 / 1000) 2)%Z.
Proof.
  apply (disc_radius_bounds JUPITER_RADIUS_AT_ZOOM_ONE 1 (843 / 1000) 1 2);
    unfold JUPITER_RADIUS_AT_ZOOM_ONE; lra.
Defined.

(** X18.  Without rings the image is exactly as wide as the disc.  With
    rings, the image is at least as wide as the disc when the last ring is
    at least as large as the planet, and the ellipse of the last ring,
    when it is drawn as an outline, sticks out of the image by at most one
    pixel on the left and not at all on the right. *)
Theorem image_holds_disc_and_rings (rings : list R) (r : Z) :
  (image_side [] r = 2 * r)%Z
  /\ (rings <> [] -> (0 <= r)%Z -> 1 <= last rings 0 ->
      (2 * r <= image_side rings r)%Z)
  /\ (rings <> [] -> (0 <= r)%Z ->
      forall left top w h lw,
        ring_ellipse (image_side rings r) r (last rings 0)
          = ((left, top, w, h), lw) ->
        (lw = 1 -> -1 <= left /\ left + w <= image_side rings r)%Z).
Proof.
  split; [unfold image_side; cbn [length Nat.ltb Nat.leb]; lia|].
  assert (Hside : rings <> [] ->
            image_side rings r
            = Z.max (r + 1) (Zceil (last rings 0 * 2 * IZR r))).
  { intros Hne. unfold image_side. destruct rings; [easy | reflexivity]. }
  split.
  - intros Hne Hr Hl. rewrite (Hside Hne).
    pose proof (Zceil_bound (last rings 0 * 2 * IZR r)) as [_ Hc].
    assert (H0 : 0 <= IZR r) by now apply IZR_le.
    assert (H : IZR (2 * r) <= IZR (Zceil (last rings 0 * 2 * IZR r))).
    { rewrite mult_IZR. nra. }
    apply le_IZR in H. lia.
  - intros Hne Hr left top w h lw Heq Hlw.
    rewrite (Hside Hne) in *.
    set (rho := last rings 0) in *.
    unfold ring_ellipse in Heq; cbv zeta in Heq.
    injection Heq as <- _ <- _ Hw.
    set (k := round_half_even (rho * IZR r)) in *.
    destruct (Z.max (r + 1) k =? r + 1)%Z eqn:Hk; [lia|].
    apply Z.eqb_neq in Hk.
    assert (Hmax : Z.max (r + 1) k = k) by lia. rewrite Hmax.
    pose proof (round_half_even_near (rho * IZR r)) as [Hn1 Hn2]. fold k in Hn1, Hn2.
    pose proof (Zceil_bound (rho * 2 * IZR r)) as [Hc1 Hc2].
    set (c := Zceil (rho * 2 * IZR r)) in *.
    assert (H1 : IZR (2 * k - 1) <= IZR c).
    { rewrite minus_IZR, mult_IZR. lra. }
    assert (H2 : IZR c - 1 < IZR (2 * k + 1)).
    { rewrite plus_IZR, mult_IZR. lra. }
    apply le_IZR in H1.
    assert (H3 : (c - 1 < 2 * k + 1)%Z).
    { apply lt_IZR. rewrite minus_IZR. exact H2. }
    assert (Hm : Z.max (r + 1) c = c) by lia. rewrite Hm.
    split; [|]; Z.div_mod_to_equations; lia.
Qed.

Lemma image_holds_disc_and_rings_witness :
  (2 * 13 <= image_side saturn_rings 13)%Z.
Proof.
  apply (image_holds_disc_and_rings saturn_rings 13).
  - discriminate.
  - lia.
  - cbn; lra.
Defined.

Lemma loop_fuel_mono (self : KeplerOrbit.t) (M0 : R) (fuel : nat) :
  forall fuel' prevE E,
    (fuel <= fuel')%nat ->
    _getEccentricAnomaly_loop fuel self M0 prevE 0 = Ok E ->
    _getEccentricAnomaly_loop fuel' self M0 prevE 0 = Ok E.
Proof.
  induction fuel as [|fuel IH]; intros fuel' prevE E Hle H; [discriminate|].
  destruct fuel' as [|fuel']; [lia|].
  rewrite loop_eq in *.
  destruct (isclose (step self M0 prevE) prevE _accuracy); [exact H|].
  apply IH; [lia | exact H].
Qed.

Lemma updatePosition_settles (self : KeplerOrbit.t) (time : datetime) :
  valid self ->
  exists N E, forall fuel, (N <= fuel)%nat ->
    updatePosition fuel self time = (updated self E, Ok tt).
Proof.
  intros Hv. pose proof (valid_abs self Hv) as Ha.
  destruct Hv as (He & Hap & HT & Hmy).
  destruct (updatePosition_returns self time Ha Hap) as [N HN]; [lra..|].
  destruct (HN N (Nat.le_refl N)) as (E & HE & _).
  exists N, E; intros fuel Hfuel.
  destruct (HN fuel Hfuel) as (E' & HE' & Hup).
  unfold _getEccentricAnomaly in HE, HE'.
  rewrite (loop_fuel_mono self _ N fuel _ E Hfuel HE) in HE'.
  injection HE' as <-. exact Hup.
Qed.

Lemma updated_position (self : KeplerOrbit.t) (E : R) :
  valid self ->
  exists p, getCartesianPosition (updated self E) = Ok p
    /\ between_apsides self (vertex p).
Proof.
  intros Hv.
  set (phi := f_of self E + O self + o self).
  exists (_getDistance self E * cos phi, _getDistance self E * sin phi).
  split; [reflexivity|].
  unfold between_apsides, vertex; cbn [fst snd].
  assert (Hr : 0 < _getDistance self E).
  { pose proof (valid_abs self Hv) as Ha. destruct Hv as (_ & Hap & _).
    destruct (one_minus_ecos_pos self E Ha) as [H1 _].
    unfold _getDistance; nra. }
  replace (_getDistance self E * cos phi * (_getDistance self E * cos phi)
           + - (_getDistance self E * sin phi) * - (_getDistance self E * sin phi))
    with (Rsqr (_getDistance self E) * (Rsqr (sin phi) + Rsqr (cos phi)))
    by (unfold Rsqr; ring).
  rewrite sin2_cos2, Rmult_1_r, sqrt_Rsqr by lra.
  destruct Hv as ([He0 He1] & Hap & _).
  apply distance_bounds; lra.
Qed.

Lemma createVertexList_loop_returns (timeStep : timedelta) (n : nat) :
  forall (orbit : KeplerOrbit.t) (delta : timedelta),
    valid orbit ->
    exists N orbit' new,
      length new = n
      /\ Forall (between_apsides orbit) new
      /\ elements orbit' = elements orbit
      /\ forall fuel vertices, (N <= fuel)%nat ->
           createVertexList_loop fuel n orbit delta timeStep vertices
           = (orbit', Ok (vertices ++ new)).
Proof.
  induction n as [|n IH]; intros orbit delta Hv.
  - exists 0%nat, orbit, []. repeat split; [constructor|].
    intros fuel vertices _. cbn. now rewrite app_nil_r.
  - destruct (updatePosition_settles orbit (epoch orbit + delta)%Z Hv)
      as (N1 & E & HN1).
    destruct (updated_position orbit E Hv) as (p & Hp & Hin).
    assert (Hv' : valid (updated orbit E)) by exact Hv.
    destruct (IH (updated orbit E) (delta + timeStep)%Z Hv')
      as (N2 & orbit' & new & Hlen & Hall & Hel & HN2).
    exists (Nat.max N1 N2), orbit', (vertex p :: new).
    split; [cbn; now rewrite Hlen|].
    split; [constructor; [exact Hin | exact Hall]|].
    split; [exact Hel|].
    intros fuel vertices Hfuel.
    cbn [createVertexList_loop].
    rewrite (HN1 fuel) by lia. rewrite Hp.
    rewrite (HN2 fuel) by lia.
    now rewrite <- app_assoc.
Qed.



Lemma floor_abs (q b : R) : Rabs q <= b -> IZR (Z.abs (Zfloor q)) <= b + 1.
Proof.
  intros Hq. pose proof (Zfloor_bound q) as [Hl Hu].
  rewrite abs_IZR.
  unfold Rabs in *.
  destruct (Rcase_abs q); destruct (Rcase_abs (IZR (Zfloor q))); lra.
Qed.

(** X20.  A vertex between the apsidal circles is drawn, for a zoom that
    is not negative and a positive scale, at most
    [zoom * a(1+e) / scale + 1] pixels from the origin in each
    direction. *)
Theorem drawn_point_near_origo
    (orbit : KeplerOrbit.t) (p : R * R) (zoom scale : R) (x0 y0 : Z) :
  between_apsides orbit p -> 0 <= zoom -> 0 < scale ->
  exists px py,
    redraw_point zoom scale x0 y0 p = Ok (px, py)
    /\ IZR (Z.abs (px - x0)) <= zoom * (a orbit * (1 + e orbit)) / scale + 1
    /\ IZR (Z.abs (py - y0)) <= zoom * (a orbit * (1 + e orbit)) / scale + 1.
Proof.
  intros [_ Hp] Hz Hs.
  set (d := sqrt (fst p * fst p + snd p * snd p)) in *.
  assert (Hd : 0 <= d) by apply sqrt_pos.
  assert (Hsq : d * d = fst p * fst p + snd p * snd p).
  { apply sqrt_sqrt. nra. }
  assert (Hx : Rabs (fst p) <= d).
  { apply Rabs_le. split; nra. }
  assert (Hy : Rabs (snd p) <= d).
  { apply Rabs_le. split; nra. }
  assert (Hq : forall c, Rabs c <= d ->
                 Rabs (zoom * c / scale)
                 <= zoom * (a orbit * (1 + e orbit)) / scale).
  { intros c Hc. unfold Rdiv.
    rewrite !Rabs_mult, (Rabs_pos_eq zoom), (Rabs_pos_eq (/ scale)); try lra.
    - apply Rmult_le_compat_r; [left; now apply Rinv_0_lt_compat|].
      apply Rmult_le_compat_l; lra.
    - left; now apply Rinv_0_lt_compat. }
  exists (Zfloor (zoom * fst p / scale) + x0)%Z,
         (Zfloor (zoom * snd p / scale) + y0)%Z.
  split.
  - unfold redraw_point. rewrite !floordiv_ok by lra. reflexivity.
  - replace (Zfloor (zoom * fst p / scale) + x0 - x0)%Z
      with (Zfloor (zoom * fst p / scale)) by lia.
    replace (Zfloor (zoom * snd p / scale) + y0 - y0)%Z
      with (Zfloor (zoom * snd p / scale)) by lia.
    split; apply floor_abs; auto.
Qed.

Lemma drawn_point_near_origo_witness :
  exists px py,
    redraw_point 1 2 0 0 (1, 0) = Ok (px, py)
    /\ IZR (Z.abs (px - 0)) <= 1 * (a eccentric_half * (1 + e eccentric_half)) / 2 + 1
    /\ IZR (Z.abs (py - 0)) <= 1 * (a eccentric_half * (1 + e eccentric_half)) / 2 + 1.
Proof.
  apply (drawn_point_near_origo eccentric_half (1, 0) 1 2 0 0); try lra.
  unfold between_apsides; cbn.
  replace (1 * 1 + 0 * 0) with 1 by ring. rewrite sqrt_1. lra.
Defined.

(** X21.  The loop of [OrbitEllipse.redraw] turns every vertex into its
    screen point when the scale is not zero.  With a zero scale it raises
    [ZeroDivisionError] unless there is no vertex at all, in which case it
    returns the empty list. *)
Theorem redraw_points_all_or_nothing
    (zoom scale : R) (x0 y0 : Z) (vertices : list (R * R)) :
  (scale <> 0 ->
   redraw_points zoom scale x0 y0 vertices
   = Ok (map (fun vx => (Zfloor (zoom * fst vx / scale) + x0,
                         Zfloor (zoom * snd vx / scale) + y0)%Z) vertices))
  /\ (scale = 0 ->
      redraw_points zoom scale x0 y0 vertices
      = match vertices with [] => Ok [] | _ => Raise ZeroDivisionError end).
Proof.
  split.
  - intros Hs. induction vertices as [|vx rest IH]; [reflexivity|].
    cbn [redraw_points map]. rewrite IH. unfold redraw_point.
    rewrite !floordiv_ok by exact Hs. reflexivity.
  - intros ->. destruct vertices as [|vx rest]; [reflexivity|].
    cbn [redraw_points]. unfold redraw_point, floordiv.
    replace (Reqb 0 0) with true by (symmetry; now apply Reqb_true).
    reflexivity.
Qed.

Lemma redraw_points_all_or_nothing_witness :
  redraw_points 1 0 0 0 [(1, 0)] = Raise ZeroDivisionError.
Proof.
  apply (redraw_points_all_or_nothing 1 0 0 0 [(1, 0)]). reflexivity.
Defined.

End SpriteFacts.

(** ** Scientific notation of the planet labels *)

Section SciFormatFacts.

Import Py KeplerOrbit Kepler.
Open Scope R_scope.

Lemma ln_10_pos : 0 < ln 10.
Proof. rewrite <- ln_1. apply ln_increasing; lra. Qed.

Lemma powerRZ_10_exp (k : Z) : powerRZ 10 k = exp (IZR k * ln 10).
Proof. rewrite powerRZ_Rpower by lra. reflexivity. Qed.

(** For a positive number, [floor(log10 num)] is at least [k] exactly when
    [num] is at least [10**k]. *)
Lemma magnitude_ge (x : R) (k : Z) :
  0 < x -> (k <= Zfloor (ln x / ln 10))%Z <-> powerRZ 10 k <= x.
Proof.
  intros Hx. pose proof ln_10_pos as H10.
  pose proof (Zfloor_bound (ln x / ln 10)) as [Hl Hu].
  assert (Hq : ln x / ln 10 * ln 10 = ln x) by (field; lra).
  rewrite powerRZ_10_exp. rewrite <- (exp_ln x Hx) at 2.
  split.
  - intros Hk. apply IZR_le in Hk.
    assert (H : IZR k * ln 10 <= ln x) by (rewrite <- Hq; nra).
    destruct H as [H|H]; [left; now apply exp_increasing | right; now rewrite H].
  - intros He.
    assert (H : IZR k * ln 10 <= ln x).
    { destruct He as [He|He]; [left; now apply exp_lt_inv | right; now apply exp_inv]. }
    assert (H' : IZR k < IZR (Zfloor (ln x / ln 10)) + 1).
    { apply Rle_lt_trans with (2 := Hu).
      apply (Rmult_le_reg_r (ln 10)); [exact H10 | now rewrite Hq]. }
    rewrite <- plus_IZR in H'. apply lt_IZR in H'. lia.
Qed.

Lemma SciFormat_init_Ok (x : R) :
  0 < x ->
  SciFormat.__init__ x
  = Ok (SciFormat.mk x (Zfloor (ln x / ln 10))
          (x / powerRZ 10 (Zfloor (ln x / ln 10)))).
Proof.
  intros Hx. unfold SciFormat.__init__, SciFormat.math_log10.
  replace (Rleb x 0) with false by (symmetry; apply Rleb_false; exact Hx).
  cbn [bind].
  assert (Hp : 0 < powerRZ 10 (Zfloor (ln x / ln 10)))
    by (apply powerRZ_lt; lra).
  now rewrite truediv_ok by lra.
Qed.

(** X22.  [SciFormat(num)] raises [ValueError] when [num] is zero or
    negative.  For a positive [num] it stores a base in [1, 10) and a
    magnitude with [num = base * 10 ** magnitude]. *)
Theorem SciFormat_normalises (x : R) :
  (x <= 0 -> SciFormat.__init__ x = Raise ValueError)
  /\ (0 < x ->
      exists s, SciFormat.__init__ x = Ok s
        /\ SciFormat.num s = x
        /\ 1 <= SciFormat.base s < 10
        /\ x = SciFormat.base s * powerRZ 10 (SciFormat.magnitude s)).
Proof.
  unfold SciFormat.__init__, SciFormat.math_log10. split.
  - intros Hx. apply Rleb_true in Hx. now rewrite Hx.
  - intros Hx. replace (Rleb x 0) with false
      by (symmetry; apply Rleb_false; exact Hx).
    cbn [bind]. set (m := Zfloor (ln x / ln 10)).
    assert (Hp : 0 < powerRZ 10 m) by (apply powerRZ_lt; lra).
    rewrite truediv_ok by lra. cbn [bind].
    eexists; split; [reflexivity|]. cbn [SciFormat.num SciFormat.base SciFormat.magnitude].
    split; [reflexivity|].
    assert (Hlo : powerRZ 10 m <= x) by (apply magnitude_ge; [exact Hx | unfold m; lia]).
    assert (Hhi : x < powerRZ 10 (m + 1)).
    { apply Rnot_le_lt. intros Hc. apply magnitude_ge in Hc; [|exact Hx].
      fold m in Hc. lia. }
    rewrite powerRZ_add in Hhi by lra. change (powerRZ 10 1) with (10 * 1) in Hhi.
    split; [|field; lra].
    split.
    + apply (Rmult_le_reg_r (powerRZ 10 m)); [exact Hp|].
      replace (x / powerRZ 10 m * powerRZ 10 m) with x by (field; lra). lra.
    + apply (Rmult_lt_reg_r (powerRZ 10 m)); [exact Hp|].
      replace (x / powerRZ 10 m * powerRZ 10 m) with x by (field; lra). lra.
Qed.

Lemma SciFormat_normalises_witness :
  exists s, SciFormat.__init__ 12345 = Ok s
    /\ SciFormat.num s = 12345
    /\ 1 <= SciFormat.base s < 10
    /\ 12345 = SciFormat.base s * powerRZ 10 (SciFormat.magnitude s).
Proof.
  apply (SciFormat_normalises 12345). lra.
Defined.

(** X23.  A [SciFormat] object exists only for a positive number, its
    magnitude is the decimal exponent ([10 ** magnitude <= num <
    10 ** (magnitude + 1)]), and [__format__] takes the plain notation
    exactly when the magnitude limit is positive and
    [10 ** (1 - magLim) <= num < 10 ** magLim]; with the default limit 0
    the scientific notation is always used. *)
Theorem plain_notation_range (x : R) (s : SciFormat.t) (magLim : Z) :
  SciFormat.__init__ x = Ok s ->
  0 < x
  /\ powerRZ 10 (SciFormat.magnitude s) <= x
     < powerRZ 10 (SciFormat.magnitude s + 1)
  /\ (SciFormat.plain_notation s magLim = true
      <-> (0 < magLim)%Z /\ powerRZ 10 (1 - magLim) <= x < powerRZ 10 magLim).
Proof.
  unfold SciFormat.__init__, SciFormat.math_log10.
  destruct (Rleb x 0) eqn:Hx; [discriminate|]. apply Rleb_false in Hx.
  cbn [bind]. set (m := Zfloor (ln x / ln 10)).
  assert (Hp : 0 < powerRZ 10 m) by (apply powerRZ_lt; lra).
  rewrite truediv_ok by lra. cbn [bind]. intros [= <-].
  unfold SciFormat.plain_notation. cbn [SciFormat.magnitude].
  assert (Hge : forall k, (k <= m)%Z <-> powerRZ 10 k <= x)
    by (intros k; now apply magnitude_ge).
  assert (Hlt : forall k, (m < k)%Z <-> x < powerRZ 10 k).
  { intros k; split.
    - intros H. apply Rnot_le_lt. intros Hc. apply Hge in Hc. lia.
    - intros H. apply Z.nle_gt. intros Hc. apply Hge in Hc. lra. }
  split; [exact Hx|]. split.
  - split; [apply Hge; lia | apply Hlt; lia].
  - rewrite Z.ltb_lt. split.
    + intros H. split; [lia|]. split; [apply Hge; lia | apply Hlt; lia].
    + intros (H0 & H1 & H2). apply Hge in H1. apply Hlt in H2. lia.
Qed.

Lemma plain_notation_range_witness :
  exists s, SciFormat.__init__ 30 = Ok s
    /\ SciFormat.plain_notation s SciFormat.speed_magLim = true.
Proof.
  assert (Hs := SciFormat_init_Ok 30 ltac:(lra)).
  eexists. split; [exact Hs|].
  apply (plain_notation_range 30 _ SciFormat.speed_magLim Hs).
  split; [reflexivity|].
  change (/ (10 * (10 * 1)) <= 30 < 10 * (10 * (10 * 1))). lra.
Defined.

(** X24.  The two numbers [updateRealtimeLabels] formats for the selected
    planet.  After a returning update of an orbit with a positive
    gravitational parameter both [SciFormat] objects are built, from
    [r / 1000] and [v / 1000].  With [my = 0], which the constructor of
    [KeplerOrbit] accepts, the speed is [0] and [SciFormat] raises
    [ValueError]. *)
Theorem planet_info_outcomes
    (fuel : nat) (self self' : KeplerOrbit.t) (time : Datetime.datetime) :
  0 <= e self < 1 -> 0 < a self -> 0 <= my self ->
  updatePosition fuel self time = (self', Ok tt) ->
  (0 < my self ->
   exists r0 v0 distance speed,
     r self' = Some r0 /\ v self' = Some v0
     /\ SciFormat.planet_info self' = Ok (distance, speed)
     /\ SciFormat.num distance = r0 / 1000
     /\ SciFormat.num speed = v0 / 1000)
  /\ (my self = 0 -> SciFormat.planet_info self' = Raise ValueError).
Proof.
  intros [He0 He1] Hap Hmy H.
  assert (Habs : Rabs (e self) < 1) by (rewrite Rabs_pos_eq; lra).
  apply updatePosition_Ok_inv in H as (E & _ & _ & _ & _ & _ & _ & Hs & ->).
  destruct (one_minus_ecos_pos self E Habs) as [Hm Hp].
  assert (Hr : 0 < _getDistance self E) by (unfold _getDistance; nra).
  assert (Hinfo :
            SciFormat.planet_info (updated self E)
            = bind (SciFormat.__init__ (_getDistance self E / 1000))
                (fun distance =>
                   bind (SciFormat.__init__ (v_of self E / 1000))
                     (fun speed => Ok (distance, speed)))).
  { unfold SciFormat.planet_info. cbn [updated set_v set_r set_f r v member bind].
    rewrite !truediv_ok by lra. reflexivity. }
  split.
  - intros Hpos.
    assert (Hv : 0 < v_of self E).
    { unfold v_of. apply sqrt_lt_R0.
      rewrite vis_viva_radicand by (try assumption; lra).
      apply Rmult_lt_0_compat; [exact Hpos|].
      apply Rmult_lt_0_compat; [now apply Rinv_0_lt_compat|].
      apply Rdiv_lt_0_compat; lra. }
    exists (_getDistance self E), (v_of self E).
    rewrite Hinfo, !SciFormat_init_Ok by lra. cbn [bind].
    eexists; eexists. repeat split.
  - intros H0.
    assert (Hv : v_of self E = 0).
    { unfold v_of. rewrite H0, Rmult_0_l. apply sqrt_0. }
    rewrite Hinfo, SciFormat_init_Ok by lra. cbn [bind].
    rewrite Hv. unfold SciFormat.__init__, SciFormat.math_log10.
    replace (Rleb (0 / 1000) 0) with true; [reflexivity|].
    symmetry; apply Rleb_true; lra.
Qed.

Lemma planet_info_outcomes_witness :
  exists fuel self',
    updatePosition fuel SciFormat.massless (epoch SciFormat.massless)
    = (self', Ok tt)
    /\ SciFormat.planet_info self' = Raise ValueError.
Proof.
  destruct (updatePosition_returns SciFormat.massless
              (epoch SciFormat.massless)) as [N HN].
  - cbn. rewrite Rabs_pos_eq; lra.
  - cbn; lra.
  - cbn; lra.
  - cbn; lra.
  - destruct (HN N (Nat.le_refl N)) as (E & _ & HE).
    exists N, (updated SciFormat.massless E). split; [exact HE|].
    apply (planet_info_outcomes N SciFormat.massless _
             (epoch SciFormat.massless)); [cbn; lra.. | exact HE | reflexivity].
Defined.

End SciFormatFacts.

(** ** [Planet.update] as a whole *)

Section PlanetFacts.

Import Py KeplerOrbit Kepler ZoomSprite.
Open Scope R_scope.
Open Scope py_scope.



End PlanetFacts.

(** ** The nine planets of [initCelestialBodies] *)

Section BodiesFacts.

Import Py KeplerOrbit Kepler Controls.
Open Scope R_scope.
Open Scope py_scope.

Lemma planet_info_updated (self : KeplerOrbit.t) (E : R) :
  valid self ->
  exists distance speed,
    SciFormat.planet_info (updated self E) = Ok (distance, speed)
    /\ SciFormat.num distance = _getDistance self E / 1000
    /\ SciFormat.num speed = v_of self E / 1000.
Proof.
  intros Hv. pose proof (valid_abs self Hv) as Habs.
  destruct Hv as ([He0 He1] & Hap & _ & Hmy).
  destruct (one_minus_ecos_pos self E Habs) as [Hm Hp].
  assert (Hr : 0 < _getDistance self E) by (unfold _getDistance; nra).
  assert (Hs : 0 < v_of self E).
  { unfold v_of. apply sqrt_lt_R0.
    rewrite vis_viva_radicand by (try assumption; lra).
    apply Rmult_lt_0_compat; [exact Hmy|].
    apply Rmult_lt_0_compat; [now apply Rinv_0_lt_compat|].
    apply Rdiv_lt_0_compat; lra. }
  unfold SciFormat.planet_info.
  cbn [updated set_v set_r set_f r v member bind].
  rewrite !truediv_ok by lra. cbn [bind].
  rewrite !SciFormat_init_Ok by lra. cbn [bind].
  eexists; eexists. repeat split.
Qed.

Lemma init_settles (e0 a0 T0 O0 o0 M0 my0 : R) :
  valid (fresh e0 a0 T0 O0 o0 M0 my0) ->
  exists N E, forall fuel, (N <= fuel)%nat ->
    __init__ fuel e0 a0 T0 O0 o0 M0 my0
    = Ok (updated (fresh e0 a0 T0 O0 o0 M0 my0) E).
Proof.
  intros Hv.
  destruct (updatePosition_settles _ (epoch (fresh e0 a0 T0 O0 o0 M0 my0)) Hv)
    as (N & E & HN).
  exists N, E; intros fuel Hfuel. apply init_Ok_intro, HN, Hfuel.
Qed.

(** What [updateRealtimeLabels] needs of the selected orbit. *)
Lemma KeplerOrbit_settles (e0 a0 T0 O0 o0 M0 : R) :
  0 <= e0 < 1 -> 0 < a0 -> 0 < T0 ->
  exists N orbit,
    (valid orbit /\ isOk (SciFormat.planet_info orbit) = true)
    /\ forall fuel, (N <= fuel)%nat ->
         KeplerOrbit_ fuel e0 a0 T0 O0 o0 M0 = Ok orbit.
Proof.
  intros He Ha HT.
  assert (Hv : valid (fresh e0 a0 T0 O0 o0 M0 (my earth))).
  { unfold valid; cbn [e a T my fresh earth]. lra. }
  destruct (init_settles _ _ _ _ _ _ _ Hv) as (N & E & HN).
  exists N, (updated (fresh e0 a0 T0 O0 o0 M0 (my earth)) E).
  split; [split; [exact Hv|] | exact HN].
  destruct (planet_info_updated _ E Hv) as (d & s & H & _). now rewrite H.
Qed.

Ltac settle H N orb Hv HN :=
  destruct H as (N & orb & Hv & HN);
  [unfold _toSeconds; lra .. |].

(** X25.  [initCelestialBodies] raises nothing: given enough fuel all nine
    orbits are constructed, [PlanetGroup.add] stores them under the names
    Mercury to Pluto in that order, each has its elements in their
    domains and can be shown by [updateRealtimeLabels], and every index
    from 0 to 8 selects one of them. *)
Theorem initCelestialBodies_returns :
  exists N orbits,
    (forall fuel, (N <= fuel)%nat ->
       exists sprites,
         initCelestialBodies fuel = Ok sprites
         /\ PlanetGroup_add [] sprites = orbits)
    /\ map fst orbits = planet_names
    /\ Forall (fun p => valid (snd p)
                       /\ isOk (SciFormat.planet_info (snd p)) = true) orbits
    /\ (forall index, (0 <= index <= 8)%Z ->
        isOk (SolarSystem.getitem orbits index) = true).
Proof.
  settle (KeplerOrbit_settles (21 / 100) 57909050000
            (_toSeconds (879691 / 10000))
            (_toRadians (48331 / 1000)) (_toRadians (29124 / 1000))
            (_toRadians (174796 / 1000))) N1 o1 Hv1 H1.
  settle (KeplerOrbit_settles (68 / 10000) 108208628000
            (_toSeconds (2247 / 10))
            (_toRadians (76680 / 1000)) (_toRadians (54884 / 1000))
            (_toRadians (50115 / 1000))) N2 o2 Hv2 H2.
  destruct (init_settles (e earth) (a earth) (T earth) (O earth) (o earth)
              (M earth) (my earth) earth_valid) as (N3 & E3 & H3).
  settle (KeplerOrbit_settles (934 / 10000) 227942276000 (_toSeconds 687)
            (_toRadians (49558 / 1000)) (_toRadians (286502 / 1000))
            (_toRadians (19412 / 1000))) N4 o4 Hv4 H4.
  settle (KeplerOrbit_settles (489 / 10000) 778570000000
            (_toSeconds (433259 / 100))
            (_toRadians (100464 / 1000)) (_toRadians (273867 / 1000))
            (_toRadians (20020 / 1000))) N5 o5 Hv5 H5.
  settle (KeplerOrbit_settles (565 / 10000) 1433530000000
            (_toSeconds (1075922 / 100))
            (_toRadians (113665 / 1000)) (_toRadians (339392 / 1000))
            (_toRadians (317020 / 1000))) N6 o6 Hv6 H6.
  settle (KeplerOrbit_settles (46381 / 1000000) 2875040000000
            (_toSeconds (306885 / 10))
            (_toRadians (74006 / 1000)) (_toRadians (96998857 / 1000000))
            (_toRadians (1422386 / 10000))) N7 o7 Hv7 H7.
  settle (KeplerOrbit_settles (9456 / 1000000) 4504390000000
            (_toSeconds 60182)
            (_toRadians (131784 / 1000)) (_toRadians (276336 / 1000))
            (_toRadians (256228 / 1000))) N8 o8 Hv8 H8.
  settle (KeplerOrbit_settles (2488 / 10000) 5906380000000
            (_toSeconds 90560)
            (_toRadians (110299 / 1000)) (_toRadians (113834 / 1000))
            (_toRadians (1453 / 100))) N9 o9 Hv9 H9.
  change (fresh (e earth) (a earth) (T earth) (O earth) (o earth) (M earth)
            (my earth)) with earth in H3.
  set (o3 := updated earth E3) in *.
  assert (Hv3 : valid o3 /\ isOk (SciFormat.planet_info o3) = true).
  { split; [exact earth_valid|].
    destruct (planet_info_updated earth E3 earth_valid) as (d & s & H & _).
    unfold o3. now rewrite H. }
  exists (N1 + N2 + N3 + N4 + N5 + N6 + N7 + N8 + N9)%nat.
  exists [("Mercury", o1); ("Venus", o2); ("Earth", o3); ("Mars", o4);
          ("Jupiter", o5); ("Saturn", o6); ("Uranus", o7); ("Neptune", o8);
          ("Pluto", o9)]%string.
  split; [|split; [reflexivity|split]].
  - intros fuel Hfuel. unfold initCelestialBodies, KeplerOrbit_default.
    cbv zeta.
    rewrite (H1 fuel), (H2 fuel), (H3 fuel), (H4 fuel), (H5 fuel),
      (H6 fuel), (H7 fuel), (H8 fuel), (H9 fuel) by lia.
    cbn [bind]. eexists; split; reflexivity.
  - repeat (apply Forall_cons; [assumption|]). apply Forall_nil.
  - intros index Hi. unfold SolarSystem.getitem; cbv zeta.
    cbn [length].
    assert (H0 : (index <? 0)%Z = false) by (apply Z.ltb_ge; lia).
    assert (H10 : (Z.of_nat 9 <=? index)%Z = false) by (apply Z.leb_gt; lia).
    rewrite !H0, H10. cbn [orb].
    match goal with
    | |- context [nth_error ?l ?n] =>
        destruct (nth_error l n) eqn:Hn; [reflexivity|]
    end.
    apply nth_error_None in Hn. cbn [length] in Hn. lia.
Qed.

End BodiesFacts.
